(** * I/O pin allocation manager (src/io/io_manage.c)

    A shallow embedding of the pin accounting code of the Marionette
    firmware: the port look-up [io_manage_get_table], the availability
    check [io_manage_fn_avail], the commit [io_manage_set_mode] and the
    reset [io_manage_to_defaults].

    The C code works on a global array of pointers to port tables and
    calls the HAL to reconfigure a pad.  Both are made explicit here: a
    [world] holds the tables and the trace of [palSetPadMode] calls, and
    every function is a computation in a small state-and-failure monad.
    An array access outside the bounds of [pin] has no defined result in
    C; the embedding stops with [Fault] there.  The loop counters are
    [uint8_t] in the source, so the loops are written with the counter's
    wrap-around and a fuel argument.

    Further parts embed the line reader and the command dispatch of the
    shell (src/mshell/mshell.c), over the bytes of the channel and the
    calls the shell makes to the stream and message functions, and the
    pin set-up macros of the board header
    (src/boards/MARIONETTE/board.h). *)

From Stdlib Require Import ZArith NArith Lia Ascii String.
From stdpp Require Import base list.

Local Open Scope Z_scope.

(** ** Data model *)

(** Types of the declarations the code includes from [io_manage.h] and the
    HAL: [ioportid_t] is the address of a GPIO port, [iomode_t] an
    unsigned word, [IO_alloc] an enumeration of bit flags, and a pad is a
    [uint32_t]. *)
Definition ioportid_t := Z.
Definition iomode_t := Z.
Definition IO_alloc := Z.
Definition pad_t := N.

(** The fields of one pin record that the code reads or writes. *)
Record IO_pin : Type := mkPin {
  pad : pad_t;
  default_mode : iomode_t;
  default_alloc : IO_alloc;
  fn_available : Z;
  current_mode : iomode_t;
  current_alloc : IO_alloc
}.

(** A port table: the port and its array [pin]; [NELEMS(table->pin)] is
    the length of the list. *)
Record IO_table : Type := mkTable {
  port : ioportid_t;
  pin : list IO_pin
}.

(** One call of the HAL's [palSetPadMode(port, pad, mode)]. *)
Record pal_call : Type := mkCall {
  call_port : ioportid_t;
  call_pad : pad_t;
  call_mode : iomode_t
}.

(** The global state: [io_manage_tables] and the HAL calls made so far,
    oldest first. *)
Record world : Type := mkWorld {
  io_manage_tables : list IO_table;
  pal_trace : list pal_call
}.

(** A pointer to a port table is the index of its entry in
    [io_manage_tables]; [None] is [NULL]. *)
Definition table_ptr := option nat.

(** ** The monad *)

(** How a call ends: it returns; it reads or writes outside an array,
    which C leaves undefined; or the fuel of a loop runs out. *)
Inductive outcome (A : Type) : Type :=
| Ret (a : A)
| Fault
| Timeout.
Arguments Ret {A} a.
Arguments Fault {A}.
Arguments Timeout {A}.

(** A computation on the global state. *)
Definition M (A : Type) : Type := world -> outcome (A * world).

Definition ret {A} (a : A) : M A := fun w => Ret (a, w).

Definition bind {A B} (m : M A) (k : A -> M B) : M B :=
  fun w =>
    match m w with
    | Ret (a, w') => k a w'
    | Fault => Fault
    | Timeout => Timeout
    end.

Definition fault {A} : M A := fun _ => Fault.

Notation "'let!' x ':=' m 'in' k" := (bind m (fun x => k))
  (at level 10, x name, m at level 200, k at level 200,
   format "'[v' 'let!'  x  :=  m  'in' '/' k ']'").

(** [NELEMS(io_manage_tables)]. *)
Definition nelems_tables : M Z :=
  fun w => Ret (Z.of_nat (length (io_manage_tables w)), w).

(** [io_manage_tables[i]], the table an entry points to. *)
Definition load_table (i : nat) : M IO_table :=
  fun w =>
    match io_manage_tables w !! i with
    | Some t => Ret (t, w)
    | None => Fault
    end.

(** [table->pin[pad]] as an rvalue. *)
Definition load_pin (table : nat) (pd : pad_t) : M IO_pin :=
  let! t := load_table table in
  match pin t !! N.to_nat pd with
  | Some p => ret p
  | None => fault
  end.

(** An assignment to a field of [table->pin[pad]]: [f] rewrites the
    field. *)
Definition store_pin (table : nat) (pd : pad_t) (f : IO_pin -> IO_pin) : M unit :=
  fun w =>
    match io_manage_tables w !! table with
    | Some t =>
        match pin t !! N.to_nat pd with
        | Some p =>
            Ret (tt, mkWorld
                       (<[table := mkTable (port t) (<[N.to_nat pd := f p]> (pin t))]>
                          (io_manage_tables w))
                       (pal_trace w))
        | None => Fault
        end
    | None => Fault
    end.

(** [p.current_mode = m] and [p.current_alloc = a]. *)
Definition set_current_mode (m : iomode_t) (p : IO_pin) : IO_pin :=
  mkPin (pad p) (default_mode p) (default_alloc p) (fn_available p) m (current_alloc p).

Definition set_current_alloc (a : IO_alloc) (p : IO_pin) : IO_pin :=
  mkPin (pad p) (default_mode p) (default_alloc p) (fn_available p) (current_mode p) a.

(** The HAL call; it has no result and is only recorded. *)
Definition palSetPadMode (pt : ioportid_t) (pd : pad_t) (m : iomode_t) : M unit :=
  fun w => Ret (tt, mkWorld (io_manage_tables w) (pal_trace w ++ [mkCall pt pd m])).

(** [++i] on a [uint8_t]. *)
Definition u8_incr (i : Z) : Z := (i + 1) mod 256.

(** ** The functions of io_manage.c *)

(** The loop of [io_manage_get_table] from counter value [i] on.  The
    argument [pd] is never read, as in the source. *)
Fixpoint get_table_loop (fuel : nat) (i : Z) (pt : ioportid_t) (pd : pad_t)
  : M table_ptr :=
  let! n := nelems_tables in
  if i <? n then
    match fuel with
    | O => fun _ => Timeout
    | S fuel' =>
        let! t := load_table (Z.to_nat i) in
        if port t =? pt then ret (Some (Z.to_nat i))
        else get_table_loop fuel' (u8_incr i) pt pd
    end
  else ret None.

(** [io_manage_get_table] (io_manage.c, lines 37-47): the first table
    whose port is [pt], or [NULL]. *)
Definition io_manage_get_table (fuel : nat) (pt : ioportid_t) (pd : pad_t)
  : M table_ptr :=
  get_table_loop fuel 0 pt pd.

(** [io_manage_fn_avail] (lines 51-68).  [table->pin[pad]] is read
    without a check of [pad], once for [current_alloc] and, when that is
    not the requested tag, once more for [fn_available]. *)
Definition io_manage_fn_avail (pt : ioportid_t) (pd : pad_t)
    (request_alloc : IO_alloc) (table : table_ptr) : M bool :=
  match table with
  | Some tb =>
      let! p := load_pin tb pd in
      let curr_alloc := current_alloc p in
      if curr_alloc =? request_alloc then ret true
      else
        let! p' := load_pin tb pd in
        if negb (Z.land request_alloc (fn_available p') =? 0) then ret true
        else ret false
  | None => ret false
  end.

(** [io_manage_set_mode] (lines 72-84): the two field assignments, then
    the HAL call, when the check passes.  The branch for a [NULL] table
    after a passed check is a dereference of [NULL]; the check never
    passes for [NULL]. *)
Definition io_manage_set_mode (fuel : nat) (pt : ioportid_t) (pd : pad_t)
    (new_mode : iomode_t) (request_alloc : IO_alloc) : M bool :=
  let! table := io_manage_get_table fuel pt pd in
  let! ok := io_manage_fn_avail pt pd request_alloc table in
  if ok then
    match table with
    | Some tb =>
        let! _ := store_pin tb pd (set_current_mode new_mode) in
        let! _ := store_pin tb pd (set_current_alloc request_alloc) in
        let! _ := palSetPadMode pt pd new_mode in
        ret true
    | None => fault
    end
  else ret false.

(** A [for (uint8_t i = start; i < n; ++i) body] loop. *)
Fixpoint for_u8 (fuel : nat) (i : Z) (n : Z) (body : Z -> M unit) : M unit :=
  if i <? n then
    match fuel with
    | O => fun _ => Timeout
    | S fuel' => let! _ := body i in for_u8 fuel' (u8_incr i) n body
    end
  else ret tt.

(** The body of the inner loop of [io_manage_to_defaults] (lines 96-98):
    two assignments that each read a default field of [table->pin[j]],
    then the HAL call with the table's port, the pin's [pad] field and
    the mode just stored. *)
Definition reset_pin (table : nat) (j : Z) : M unit :=
  let pd := Z.to_N j in
  let! p0 := load_pin table pd in
  let! _ := store_pin table pd (set_current_mode (default_mode p0)) in
  let! p1 := load_pin table pd in
  let! _ := store_pin table pd (set_current_alloc (default_alloc p1)) in
  let! t := load_table table in
  let! p2 := load_pin table pd in
  palSetPadMode (port t) (pad p2) (current_mode p2).

(** The body of the outer loop: [table = io_manage_tables[i]] and the
    loop over [NELEMS(table->pin)]. *)
Definition reset_table (fuel : nat) (i : Z) : M unit :=
  let table := Z.to_nat i in
  let! t := load_table table in
  for_u8 fuel 0 (Z.of_nat (length (pin t))) (reset_pin table).

(** [io_manage_to_defaults] (lines 88-101). *)
Definition io_manage_to_defaults (fuel : nat) : M unit :=
  let! n := nelems_tables in
  for_u8 fuel 0 n (reset_table fuel).

(** ** Reference functions

    Closed forms that the monadic code is proved equal to. *)

(** The table a port resolves to: the first entry of [io_manage_tables]
    whose [port] field is the requested one. *)
Definition find_port (tabs : list IO_table) (pt : ioportid_t)
  : option (nat * IO_table) :=
  list_find (fun t => port t = pt) tabs.

(** A pin with both current fields set back to the defaults. *)
Definition pin_defaults (p : IO_pin) : IO_pin :=
  set_current_alloc (default_alloc p) (set_current_mode (default_mode p) p).

Definition table_defaults (t : IO_table) : IO_table :=
  mkTable (port t) (map pin_defaults (pin t)).

(** The HAL calls the reset makes for one table. *)
Definition reset_calls (t : IO_table) : list pal_call :=
  map (fun p => mkCall (port t) (pad p) (default_mode p)) (pin t).

(** Array sizes that the [uint8_t] loop counters can count up to. *)
Definition fits_u8 (w : world) : bool :=
  (length (io_manage_tables w) <=? 255)%nat
  && forallb (fun t => (length (pin t) <=? 255)%nat) (io_manage_tables w).

(** The test of [io_manage_fn_avail] on a pin record. *)
Definition avail_test (a : IO_alloc) (p : IO_pin) : bool :=
  (current_alloc p =? a) || negb (Z.land a (fn_available p) =? 0).

(** The committed pin of a successful [io_manage_set_mode]. *)
Definition commit_pin (m : iomode_t) (a : IO_alloc) (p : IO_pin) : IO_pin :=
  set_current_alloc a (set_current_mode m p).

Definition commit (k : nat) (t : IO_table) (pt : ioportid_t) (pd : pad_t)
    (m : iomode_t) (a : IO_alloc) (p : IO_pin) (w : world) : world :=
  mkWorld
    (<[k := mkTable (port t) (<[N.to_nat pd := commit_pin m a p]> (pin t))]>
       (io_manage_tables w))
    (pal_trace w ++ [mkCall pt pd m]).

(** What [io_manage_set_mode] computes, without the loop. *)
Definition set_mode_ref (pt : ioportid_t) (pd : pad_t) (m : iomode_t)
    (a : IO_alloc) : M bool :=
  fun w =>
    match find_port (io_manage_tables w) pt with
    | None => Ret (false, w)
    | Some (k, t) =>
        match pin t !! N.to_nat pd with
        | None => Fault
        | Some p =>
            if avail_test a p
            then Ret (true, commit k t pt pd m a p w)
            else Ret (false, w)
        end
    end.

(** The state [io_manage_to_defaults] leaves. *)
Definition reset_world (w : world) : world :=
  mkWorld (map table_defaults (io_manage_tables w))
          (pal_trace w ++ flat_map reset_calls (io_manage_tables w)).

(** Loop invariants of the reset.  After [j] rounds of the inner loop on
    table [k] of [w], whose contents were [t], the state is [v]. *)
Definition pins_done (w : world) (k : nat) (t : IO_table) (j : nat) (v : world) : Prop :=
  io_manage_tables v =
    <[k := mkTable (port t) (map pin_defaults (take j (pin t)) ++ drop j (pin t))]>
      (io_manage_tables w)
  /\ pal_trace v =
       pal_trace w
       ++ map (fun p => mkCall (port t) (pad p) (default_mode p)) (take j (pin t)).

(** After [i] rounds of the outer loop started in [w], the state is [v]. *)
Definition tables_done (w : world) (i : nat) (v : world) : Prop :=
  io_manage_tables v =
    map table_defaults (take i (io_manage_tables w)) ++ drop i (io_manage_tables w)
  /\ pal_trace v =
       pal_trace w ++ flat_map reset_calls (take i (io_manage_tables w)).

(** ** Requests *)

Inductive request : Type :=
| Set_mode (pt : ioportid_t) (pd : pad_t) (m : iomode_t) (a : IO_alloc)
| To_defaults.

Definition serve (fuel : nat) (r : request) : M unit :=
  match r with
  | Set_mode pt pd m a => let! _ := io_manage_set_mode fuel pt pd m a in ret tt
  | To_defaults => io_manage_to_defaults fuel
  end.

Fixpoint serve_all (fuel : nat) (rs : list request) : M unit :=
  match rs with
  | [] => ret tt
  | r :: rs' => let! _ := serve fuel r in serve_all fuel rs'
  end.

(** ** Predicates on the registry *)

(** A pin in its reset state. *)
Definition at_defaults (p : IO_pin) : Prop :=
  current_mode p = default_mode p /\ current_alloc p = default_alloc p.

(** Every pin is in its reset state: the registry as it is after boot. *)
Definition booted (w : world) : Prop :=
  Forall (fun t => Forall at_defaults (pin t)) (io_manage_tables w).


(** A property of every pin record of the registry. *)
Definition all_pins (Q : IO_pin -> Prop) (w : world) : Prop :=
  Forall (fun t => Forall Q (pin t)) (io_manage_tables w).


(** A tag with exactly one bit set: one function. *)
Definition single_flag (a : IO_alloc) : Prop := exists n, 0 <= n /\ a = 2 ^ n.


(** The owner of a pin is its default owner or one function, and that
    function is one of the bits of [fn_available]. *)
Definition owner_contained (p : IO_pin) : Prop :=
  current_alloc p = default_alloc p
  \/ (single_flag (current_alloc p)
      /\ Z.land (current_alloc p) (fn_available p) = current_alloc p).

(** ** An example board

    Two ports of three pins each, to run the code on. *)
Module Sample.

Definition GPIOA : ioportid_t := 0x40020000.
Definition GPIOB : ioportid_t := 0x40020400.
Definition GPIOC : ioportid_t := 0x40020800.

Definition IO_NONE : IO_alloc := 0.
Definition IO_GPIO : IO_alloc := 1.
Definition IO_ADC : IO_alloc := 2.
Definition IO_SPI : IO_alloc := 4.

Definition MODE_INPUT : iomode_t := 2.
Definition MODE_ANALOG : iomode_t := 3.
Definition MODE_OUTPUT : iomode_t := 6.

Definition fresh (pd : pad_t) (m : iomode_t) (a : IO_alloc) (av : Z) : IO_pin :=
  mkPin pd m a av m a.

Definition table_a : IO_table :=
  mkTable GPIOA
    [ fresh 0%N MODE_INPUT IO_GPIO (Z.lor IO_GPIO IO_ADC);
      fresh 1%N MODE_INPUT IO_GPIO IO_GPIO;
      fresh 2%N MODE_INPUT IO_NONE IO_GPIO ].

Definition table_b : IO_table :=
  mkTable GPIOB
    [ fresh 0%N MODE_INPUT IO_GPIO (Z.lor IO_GPIO IO_SPI);
      fresh 1%N MODE_OUTPUT IO_GPIO IO_GPIO;
      fresh 2%N MODE_INPUT IO_NONE 0 ].

Definition boot : world := mkWorld [table_a; table_b] [].

(** The state after pad 0 of port A has been claimed for the ADC. *)
Definition pin_adc : IO_pin :=
  mkPin 0%N MODE_INPUT IO_GPIO (Z.lor IO_GPIO IO_ADC) MODE_ANALOG IO_ADC.

Definition table_a_adc : IO_table :=
  mkTable GPIOA
    [ pin_adc;
      fresh 1%N MODE_INPUT IO_GPIO IO_GPIO;
      fresh 2%N MODE_INPUT IO_NONE IO_GPIO ].

Definition after_adc : world :=
  mkWorld [table_a_adc; table_b] [mkCall GPIOA 0%N MODE_ANALOG].

(** A session: a claim, a rejected claim, a reset, a multi-bit claim and
    a request for a port that has no table. *)
Definition session : list request :=
  [ Set_mode GPIOA 0%N MODE_ANALOG IO_ADC;
    Set_mode GPIOA 0%N MODE_OUTPUT IO_SPI;
    To_defaults;
    Set_mode GPIOB 1%N MODE_OUTPUT (Z.lor IO_GPIO IO_SPI);
    Set_mode GPIOC 0%N MODE_OUTPUT IO_GPIO ].

Definition after_session : world :=
  Eval vm_compute in
    match serve_all 255 session boot with
    | Ret (_, w) => w
    | _ => boot
    end.



End Sample.

(** A request names a pin that the tables do not have: its port has no
    table, or its pad is past the end of the port's pin array. *)
Definition absent (w : world) (pt : ioportid_t) (pd : pad_t) : Prop :=
  match find_port (io_manage_tables w) pt with
  | None => True
  | Some (_, t) => (length (pin t) <= N.to_nat pd)%nat
  end.

(** ** The registry and the hardware

    Notions for what the HAL has been told, to compare with what the
    registry records. *)

(** The boolean a call of [io_manage_set_mode] answers, without the
    state. *)
Definition answer (r : outcome (bool * world)) : outcome bool :=
  match r with
  | Ret (b, _) => Ret b
  | Fault => Fault
  | Timeout => Timeout
  end.

(** A HAL call that configures pad [pd] of port [pt]. *)
Definition configures (pt : ioportid_t) (pd : pad_t) (c : pal_call) : bool :=
  (call_port c =? pt) && (call_pad c =? pd)%N.

(** The mode of the last HAL call for a pad, if there was one. *)
Fixpoint last_mode (tr : list pal_call) (pt : ioportid_t) (pd : pad_t)
  : option iomode_t :=
  match tr with
  | [] => None
  | c :: tr' =>
      match last_mode tr' pt pd with
      | Some m => Some m
      | None => if configures pt pd c then Some (call_mode c) else None
      end
  end.

(** The [pad] field of every pin of a table is the pin's index. *)
Definition pads_indexed (t : IO_table) : Prop :=
  map pad (pin t) = map N.of_nat (seq 0 (length (pin t))).

(** A board on which a port and a pad name one pin record: no port has
    two tables, and every [pad] field is the pin's index. *)
Definition board_ok (w : world) : Prop :=
  NoDup (map port (io_manage_tables w))
  /\ Forall pads_indexed (io_manage_tables w).

(** Wherever the HAL has been called for a pad, its last call carried the
    mode the registry records for the pin. *)
Definition hal_agrees (w : world) : Prop :=
  forall k t j p m,
    io_manage_tables w !! k = Some t ->
    pin t !! j = Some p ->
    last_mode (pal_trace w) (port t) (N.of_nat j) = Some m ->
    current_mode p = m.

(** The HAL has been called for every pad, last with the mode the
    registry records, and that mode is the default. *)
Definition hal_at_defaults (w : world) : Prop :=
  forall k t j p,
    io_manage_tables w !! k = Some t ->
    pin t !! j = Some p ->
    last_mode (pal_trace w) (port t) (N.of_nat j) = Some (current_mode p)
    /\ current_mode p = default_mode p.

(** The fields of a pin that no function of the file assigns. *)
Definition same_capability (p p' : IO_pin) : Prop :=
  pad p' = pad p /\ default_mode p' = default_mode p
  /\ default_alloc p' = default_alloc p /\ fn_available p' = fn_available p.

(** Two registries with the same ports, the same array sizes and the
    same capabilities, pin by pin. *)
Definition same_board (w w' : world) : Prop :=
  length (io_manage_tables w') = length (io_manage_tables w)
  /\ forall k t t',
       io_manage_tables w !! k = Some t ->
       io_manage_tables w' !! k = Some t' ->
       port t' = port t
       /\ length (pin t') = length (pin t)
       /\ forall j p p',
            pin t !! j = Some p -> pin t' !! j = Some p' -> same_capability p p'.

(** A board with 256 tables, none of them for port C. *)
Definition crowded : world := mkWorld (replicate 256 Sample.table_a) [].





(** * The shell (src/mshell/mshell.c)

    ** The line reader *)

(** What the shell does to the outside: the calls of the stream and
    message functions, which are not part of the file, in order. *)
Inductive shell_event : Type :=
| Stream_put (c : ascii)
| Chprintf (s : string)
| Message_error (fmt : string) (args : list string)
| Message_info (fmt : string) (args : list (option string))
| Message_uint32 (name : string) (value : Z)
| Set_visible_prompt (b : bool)
| Set_prompt (s : string).

Definition ASCII_NUL : ascii := "000"%char.
Definition ASCII_EOT : ascii := "004"%char.
Definition ASCII_BACKSPACE : ascii := "008"%char.
Definition ASCII_CR : ascii := "013"%char.
Definition ASCII_CTL_U : ascii := "021"%char.
Definition ASCII_SPACE : ascii := " "%char.
Definition ASCII_DELETE : ascii := "127"%char.

(** The string ["\r\n"]. *)
Definition CRLF : string := String ASCII_CR (String "010" EmptyString).

(** The value of a [char] in a comparison: C leaves the signedness of
    [char] to the platform, so it is an argument ([true]: signed). *)
Definition char_int (sgn : bool) (c : ascii) : Z :=
  let n := Z.of_N (N_of_ascii c) in
  if sgn && (128 <=? n) then n - 256 else n.

(** What [mshellGetLine] works on: the bytes the channel still delivers
    before it is reset, the memory at [line], and the events so far. *)
Record line_io : Type := mkLineIO {
  li_input : list ascii;
  li_buf : list ascii;
  li_out : list shell_event
}.

(** [*q = c] for [q = line + p]; outside the memory at [line] it has no
    defined result. *)
Definition store_char (buf : list ascii) (p : nat) (c : ascii) : option (list ascii) :=
  if (p <? length buf)%nat then Some (<[p := c]> buf) else None.

(** The events of an [if (mshell_echo_chars) ...]. *)
Definition echoed (echo : bool) (evs : list shell_event) : list shell_event :=
  if echo then evs else [].

(** The inner loop of the CTRL-U case (mshell.c, lines 399-409): one
    round for every character of the line, [p] going down to [line]. *)
Fixpoint kill_line (echo : bool) (p : nat) (out : list shell_event) : list shell_event :=
  match p with
  | O => out
  | S p' =>
      kill_line echo p'
        (out ++ echoed echo [Stream_put ASCII_BACKSPACE; Stream_put ASCII_SPACE;
                             Stream_put ASCII_BACKSPACE])
  end.

(** The loop of [mshellGetLine] (lines 382-452), one round for every
    byte read; [p] is the offset of the C pointer [p] from [line].  A
    read from a channel with nothing left returns 0.  The bound
    [p < line + size - 1] is compared as offsets. *)
Fixpoint getline_loop (sgn echo : bool) (size : Z) (input : list ascii)
    (buf : list ascii) (p : nat) (out : list shell_event)
  : outcome (bool * line_io) :=
  match input with
  | [] => Ret (true, mkLineIO [] buf out)
  | c :: rest =>
      if Ascii.eqb c ASCII_EOT then
        Ret (true, mkLineIO rest buf (out ++ echoed echo [Chprintf "^D"]))
      else if Ascii.eqb c ASCII_CTL_U then
        getline_loop sgn echo size rest buf 0 (kill_line echo p out)
      else if Ascii.eqb c ASCII_BACKSPACE || Ascii.eqb c ASCII_DELETE then
        match p with
        | S p' =>
            getline_loop sgn echo size rest buf p'
              (out ++ echoed echo [Stream_put c; Stream_put ASCII_SPACE; Stream_put c])
        | O => getline_loop sgn echo size rest buf p out
        end
      else if Ascii.eqb c ASCII_CR then
        let out' := out ++ echoed echo [Chprintf CRLF] in
        match store_char buf p ASCII_NUL with
        | Some buf' => Ret (false, mkLineIO rest buf' out')
        | None => Fault
        end
      else if Ascii.eqb c ASCII_NUL then
        getline_loop sgn echo size rest buf p out
      else if char_int sgn c <? char_int sgn ASCII_SPACE then
        getline_loop sgn echo size rest buf p out
      else if Z.of_nat p <? size - 1 then
        let out' := out ++ echoed echo [Stream_put c] in
        match store_char buf p c with
        | Some buf' => getline_loop sgn echo size rest buf' (S p) out'
        | None => Fault
        end
      else getline_loop sgn echo size rest buf p out
  end.

(** [mshellGetLine(chp, line, size)] (lines 378-453) with
    [mshell_echo_chars = echo]. *)
Definition mshellGetLine (sgn echo : bool) (size : Z) (io : line_io)
  : outcome (bool * line_io) :=
  getline_loop sgn echo size (li_input io) (li_buf io) 0 (li_out io).

(** The C string at the start of a buffer: the bytes before the first
    NUL. *)
Fixpoint c_string (buf : list ascii) : list ascii :=
  match buf with
  | [] => []
  | c :: buf' => if Ascii.eqb c ASCII_NUL then [] else c :: c_string buf'
  end.

(** What the caller of [mshellGetLine] sees: the flag, the line when the
    flag is FALSE, and what is left on the channel. *)
Definition line_read (r : outcome (bool * line_io))
  : outcome (bool * list ascii * list ascii) :=
  match r with
  | Ret (b, io) => Ret (b, if b then [] else c_string (li_buf io), li_input io)
  | Fault => Fault
  | Timeout => Timeout
  end.

(** A byte that ends a line: carriage return or EOT. *)
Definition ends_line (c : ascii) : bool :=
  Ascii.eqb c ASCII_CR || Ascii.eqb c ASCII_EOT.

(** A byte that is put into the line when there is room: not a control
    character and not DEL. *)
Definition storable (sgn : bool) (c : ascii) : bool :=
  (32 <=? char_int sgn c) && negb (Ascii.eqb c ASCII_DELETE).

(** The line editor as a function on the text typed so far, to compare
    the loop with. *)
Fixpoint edit (sgn : bool) (size : Z) (input : list ascii) (acc : list ascii)
  : bool * list ascii * list ascii :=
  match input with
  | [] => (true, acc, [])
  | c :: rest =>
      if Ascii.eqb c ASCII_EOT then (true, acc, rest)
      else if Ascii.eqb c ASCII_CTL_U then edit sgn size rest []
      else if Ascii.eqb c ASCII_BACKSPACE || Ascii.eqb c ASCII_DELETE then
        edit sgn size rest (removelast acc)
      else if Ascii.eqb c ASCII_CR then (false, acc, rest)
      else if Ascii.eqb c ASCII_NUL then edit sgn size rest acc
      else if char_int sgn c <? 32 then edit sgn size rest acc
      else if Z.of_nat (length acc) <? size - 1 then edit sgn size rest (acc ++ [c])
      else edit sgn size rest acc
  end.

(** Text to run the line reader on: a buffer of eight bytes that were
    never written, and typed input. *)
Module Typed.

Definition memory : list ascii := replicate 8 "?"%char.

Definition text (s : string) : list ascii := list_ascii_of_string s.

(** ["help"], return, and more. *)
Definition help_line : list ascii := text "help" ++ [ASCII_CR] ++ text "more".

(** ["fetch"], CTRL-U, ["gpio"], return. *)
Definition retyped : list ascii :=
  text "fetch" ++ [ASCII_CTL_U] ++ text "gpio" ++ [ASCII_CR].

(** ["adx"], backspace, ["c"], return. *)
Definition corrected : list ascii :=
  text "adx" ++ [ASCII_BACKSPACE] ++ text "c" ++ [ASCII_CR].

End Typed.

(** ** The commands of the shell *)

(** The state of the shell that the file keeps, the static
    [mshell_echo_chars], and what it has sent out. *)
Record shell_state : Type := mkShell {
  mshell_echo_chars : bool;
  shell_out : list shell_event
}.

Definition emit (st : shell_state) (ev : shell_event) : shell_state :=
  mkShell (mshell_echo_chars st) (shell_out st ++ [ev]).

Definition emit_all (st : shell_state) (evs : list shell_event) : shell_state :=
  mkShell (mshell_echo_chars st) (shell_out st ++ evs).

(** A command function, called with [argc] and [argv]. *)
Definition handler : Type := Z -> list string -> shell_state -> shell_state.

(** An entry of a command table; the last entry of a table has [NULL]
    in every field. *)
Record mshell_command_t : Type := mkCommand {
  sc_function : option handler;
  sc_name : option string;
  sc_help : option string
}.

(** What the file takes from elsewhere: the C library's [strcasecmp],
    the tokens [_strtok] cuts a line into (its results up to the first
    [NULL]), the constant [MSHELL_MAX_ARGUMENTS], the system time, and
    the lines [cmd_info] prints from the version data and the kernel's
    macros. *)
Class Externals : Type := {
  strcasecmp : string -> string -> Z;
  strtok_tokens : string -> list string;
  MSHELL_MAX_ARGUMENTS : Z;
  chTimeNow : Z;
  info_report : list shell_event
}.

(** [cmd_prompt], [cmd_noprompt], [cmd_echo], [cmd_noecho] (mshell.c,
    lines 62-108). *)
Definition cmd_prompt : handler := fun argc _ st =>
  if argc >? 0 then emit st (Message_error "extra arguments for command 'prompt'" [])
  else emit_all st [Set_visible_prompt true; Set_prompt "m > "].

Definition cmd_noprompt : handler := fun argc _ st =>
  if argc >? 0 then emit st (Message_error "extra arguments for command 'noprompt'" [])
  else emit_all st [Set_visible_prompt false; Set_prompt ""%string].

Definition cmd_echo : handler := fun argc _ st =>
  if argc >? 0 then emit st (Message_error "extra arguments for command 'echo'" [])
  else mkShell true (shell_out st).

Definition cmd_noecho : handler := fun argc _ st =>
  if argc >? 0 then emit st (Message_error "extra arguments for command 'noecho'" [])
  else mkShell false (shell_out st).

(** [cmd_info] (lines 112-148): the error for extra arguments, or the
    report. *)
Definition cmd_info `{Externals} : handler := fun argc _ st =>
  if argc >? 0 then emit st (Message_error "extra arguments for command 'info'" [])
  else emit_all st info_report.

(** [cmd_systime] (lines 152-157); it does not look at [argc]. *)
Definition cmd_systime `{Externals} : handler := fun _ _ st =>
  emit st (Message_uint32 "systime" chTimeNow).

(** [local_commands] (lines 162-171). *)
Definition local_commands `{Externals} : list mshell_command_t :=
  [ mkCommand (Some cmd_info) (Some "info"%string) (Some "Query system info"%string);
    mkCommand (Some cmd_systime) (Some "systime"%string) (Some "Query system time"%string);
    mkCommand (Some cmd_prompt) (Some "prompt"%string) (Some "Enable shell prompt"%string);
    mkCommand (Some cmd_noprompt) (Some "noprompt"%string) (Some "Disable shell prompt"%string);
    mkCommand (Some cmd_echo) (Some "echo"%string) (Some "Enable shell echo"%string);
    mkCommand (Some cmd_noecho) (Some "noecho"%string) (Some "Disable shell echo"%string);
    mkCommand None None None ].

(** [list_commands] (lines 50-58); [scp] is the part of the table from
    the pointer on, and a table without a last entry is read past its
    end. *)
Fixpoint list_commands (scp : list mshell_command_t) (st : shell_state)
  : outcome shell_state :=
  match scp with
  | [] => Fault
  | e :: scp' =>
      match sc_name e with
      | None => Ret st
      | Some name =>
          list_commands scp'
            (emit_all st [Message_info "+%s" [Some name];
                          Message_info (String "009" "%s") [sc_help e]])
      end
  end.

(** [cmdexec] (lines 175-188): TRUE when no entry has the name. *)
Fixpoint cmdexec `{Externals} (scp : list mshell_command_t) (name : string)
    (argc : Z) (argv : list string) (st : shell_state)
  : outcome (bool * shell_state) :=
  match scp with
  | [] => Fault
  | e :: scp' =>
      match sc_name e with
      | None => Ret (true, st)
      | Some n =>
          if strcasecmp n name =? 0 then
            match sc_function e with
            | Some f => Ret (false, f argc argv st)
            | None => Fault
            end
          else cmdexec scp' name argc argv st
      end
  end.

(** The loop that fills [args] (lines 248-257): [None] when there is a
    token that finds [n >= MSHELL_MAX_ARGUMENTS]. *)
Fixpoint collect_args `{Externals} (toks : list string) (args : list string)
  : option (list string) :=
  match toks with
  | [] => Some args
  | lp :: toks' =>
      if Z.of_nat (length args) >=? MSHELL_MAX_ARGUMENTS then None
      else collect_args toks' (args ++ [lp])
  end.

(** Whether the thread goes on with the next line or leaves its loop. *)
Inductive shell_next : Type := Go_on | Leave.

(** The branch of [mshell_thread] for a line that began with ['+']
    (lines 242-282); [command_line] is the line after the ['+'] and
    [scp] the configured table, [None] for [NULL]. *)
Definition shell_command `{Externals} (scp : option (list mshell_command_t))
    (command_line : string) (st : shell_state)
  : outcome (shell_next * shell_state) :=
  match strtok_tokens command_line with
  | [] => Ret (Go_on, st)
  | cmd :: toks =>
      match collect_args toks [] with
      | None => Ret (Go_on, emit st (Message_error "too many arguments" []))
      | Some args =>
          let n := Z.of_nat (length args) in
          if strcasecmp cmd "exit" =? 0 then
            Ret (Leave, emit st (Message_error "exit" []))
          else if strcasecmp cmd "help" =? 0 then
            let st0 :=
              emit_all st [Message_info "Marionette Shell Commands:" [];
                           Message_info "+help" [];
                           Message_info (String "009" "List shell commands") []] in
            match list_commands local_commands st0 with
            | Ret st1 =>
                match scp with
                | Some table =>
                    match list_commands table st1 with
                    | Ret st2 => Ret (Go_on, st2)
                    | Fault => Fault
                    | Timeout => Timeout
                    end
                | None => Ret (Go_on, st1)
                end
            | Fault => Fault
            | Timeout => Timeout
            end
          else
            match cmdexec local_commands cmd n args st with
            | Ret (false, st1) => Ret (Go_on, st1)
            | Ret (true, st1) =>
                let invalid := Message_error "Invalid shell command '%s'" [cmd] in
                match scp with
                | None => Ret (Go_on, emit st1 invalid)
                | Some table =>
                    match cmdexec table cmd n args st1 with
                    | Ret (false, st2) => Ret (Go_on, st2)
                    | Ret (true, st2) => Ret (Go_on, emit st2 invalid)
                    | Fault => Fault
                    | Timeout => Timeout
                    end
                end
            | Fault => Fault
            | Timeout => Timeout
            end
      end
  end.

(** An entry with a name that is not the one looked for. *)
Definition other_name `{Externals} (name : string) (e : mshell_command_t) : Prop :=
  exists n, sc_name e = Some n /\ strcasecmp n name <> 0.

(** The comparison of the C library in the "C" locale, to run the
    commands with: the difference of the first two bytes that differ
    after upper case letters are made lower case. *)
Definition lower (c : ascii) : Z :=
  let n := Z.of_N (N_of_ascii c) in
  if (65 <=? n) && (n <=? 90) then n + 32 else n.

Fixpoint ascii_strcasecmp (a b : string) : Z :=
  match a, b with
  | EmptyString, EmptyString => 0
  | EmptyString, String y _ => 0 - lower y
  | String x _, EmptyString => lower x
  | String x a', String y b' =>
      if lower x =? lower y then ascii_strcasecmp a' b' else lower x - lower y
  end.

(** Tokens cut at spaces and tabs. *)
Fixpoint split_blanks (s : string) (word : string) : list string :=
  let close := match word with EmptyString => [] | _ => [word] end in
  match s with
  | EmptyString => close
  | String c s' =>
      if Ascii.eqb c " " || Ascii.eqb c "009" then close ++ split_blanks s' EmptyString
      else split_blanks s' (word ++ String c EmptyString)
  end.

Module Console.

#[local] Instance externals : Externals := {|
  strcasecmp := ascii_strcasecmp;
  strtok_tokens := fun s => split_blanks s EmptyString;
  MSHELL_MAX_ARGUMENTS := 3;
  chTimeNow := 1000;
  info_report := [Message_info "Board: %s" [Some "MARIONETTE CORE407I"%string]]
|}.

(** A shell with the echo on that has sent nothing. *)
Definition fresh : shell_state := mkShell true [].

(** A configured table with commands named like an own command of the
    shell and like its [exit]. *)
Definition cmd_mark (tag : string) : handler := fun _ _ st =>
  emit st (Message_info tag []).

Definition configured : list mshell_command_t :=
  [ mkCommand (Some (cmd_mark "mem")) (Some "mem"%string) None;
    mkCommand (Some (cmd_mark "other echo")) (Some "echo"%string) None;
    mkCommand (Some (cmd_mark "other exit")) (Some "exit"%string) None;
    mkCommand None None None ].

End Console.

(** * The pin set-up macros of the board (src/boards/MARIONETTE/board.h) *)

(** The value of an [unsigned] expression. *)
Definition u32 (x : Z) : Z := x mod 2 ^ 32.

(** The macros of lines 212-215 and 227, for a pin number [n]; the shift
    is that of C for [n <= 15]. *)
Definition PIN_MODE_INPUT (n : Z) : Z := u32 (Z.shiftl 0 (n * 2)).
Definition PIN_MODE_OUTPUT (n : Z) : Z := u32 (Z.shiftl 1 (n * 2)).
Definition PIN_MODE_ALTERNATE (n : Z) : Z := u32 (Z.shiftl 2 (n * 2)).
Definition PIN_MODE_ANALOG (n : Z) : Z := u32 (Z.shiftl 3 (n * 2)).
Definition PIN_AFIO_AF (n v : Z) : Z := u32 (Z.shiftl v ((n mod 8) * 4)).

(** The four modes of a pin, and the macro and the two bits of each. *)
Inductive pin_mode : Type := Mode_input | Mode_output | Mode_alternate | Mode_analog.

Definition pin_mode_macro (m : pin_mode) (n : Z) : Z :=
  match m with
  | Mode_input => PIN_MODE_INPUT n
  | Mode_output => PIN_MODE_OUTPUT n
  | Mode_alternate => PIN_MODE_ALTERNATE n
  | Mode_analog => PIN_MODE_ANALOG n
  end.

Definition mode_bits (m : pin_mode) : Z :=
  match m with
  | Mode_input => 0
  | Mode_output => 1
  | Mode_alternate => 2
  | Mode_analog => 3
  end.

(** A [VAL_GPIOx_MODER]: the macros of the pins [n], [n + 1], ... joined
    with [|]. *)
Fixpoint moder_from (n : Z) (ms : list pin_mode) : Z :=
  match ms with
  | [] => 0
  | m :: ms' => Z.lor (pin_mode_macro m n) (moder_from (n + 1) ms')
  end.

(** A [VAL_GPIOx_AFRL] ([n = 0]) or [VAL_GPIOx_AFRH] ([n = 8]): the
    [PIN_AFIO_AF] of the pins [n], [n + 1], ... joined with [|]. *)
Fixpoint afr_from (n : Z) (vs : list Z) : Z :=
  match vs with
  | [] => 0
  | v :: vs' => Z.lor (PIN_AFIO_AF n v) (afr_from (n + 1) vs')
  end.

(** The field of pin [n] in a mode register, and nibble [i] of an
    alternate function register, as the port reads them. *)
Definition mode_field (reg n : Z) : Z := Z.land (Z.shiftr reg (n * 2)) 3.
Definition af_field (reg i : Z) : Z := Z.land (Z.shiftr reg (i * 4)) 15.

(** [VAL_GPIOA_MODER] (lines 249-264) and [VAL_GPIOA_AFRH] (lines
    337-344). *)
Definition VAL_GPIOA_MODER : Z :=
  moder_from 0
    [ Mode_input; Mode_input; Mode_input; Mode_input; Mode_input; Mode_input;
      Mode_input; Mode_input; Mode_input; Mode_input; Mode_input;
      Mode_alternate; Mode_alternate; Mode_alternate; Mode_alternate; Mode_input ].

Definition VAL_GPIOA_AFRH : Z := afr_from 8 [0; 0; 0; 10; 10; 0; 0; 0].

(** Fields of [w] bits, one for every value, from field [k] on: the
    common shape of the registers above. *)
Fixpoint packed_from (w k : Z) (vs : list Z) : Z :=
  match vs with
  | [] => 0
  | v :: vs' => Z.lor (u32 (Z.shiftl v (k * w))) (packed_from w (k + 1) vs')
  end.

(** ** Basic facts about the monad and the memory operations *)

Lemma bind_Ret {A B} (m : M A) (k : A -> M B) w a w' :
  m w = Ret (a, w') -> bind m k w = k a w'.
Proof. intros H. unfold bind. now rewrite H. Qed.

Lemma bind_inv {A B} (m : M A) (k : A -> M B) w r :
  bind m k w = Ret r -> exists a w', m w = Ret (a, w') /\ k a w' = Ret r.
Proof.
  unfold bind. destruct (m w) as [[a w']| |]; try discriminate.
  intros H. now exists a, w'.
Qed.

Lemma load_table_Some i w t :
  io_manage_tables w !! i = Some t -> load_table i w = Ret (t, w).
Proof. intros H. unfold load_table. now rewrite H. Qed.

Lemma load_pin_Some k pd w t p :
  io_manage_tables w !! k = Some t ->
  pin t !! N.to_nat pd = Some p ->
  load_pin k pd w = Ret (p, w).
Proof.
  intros Ht Hp. unfold load_pin.
  rewrite (bind_Ret _ _ _ _ _ (load_table_Some _ _ _ Ht)). now rewrite Hp.
Qed.

Lemma store_pin_Some k pd f w t p :
  io_manage_tables w !! k = Some t ->
  pin t !! N.to_nat pd = Some p ->
  store_pin k pd f w =
    Ret (tt, mkWorld
               (<[k := mkTable (port t) (<[N.to_nat pd := f p]> (pin t))]>
                  (io_manage_tables w))
               (pal_trace w)).
Proof. intros Ht Hp. unfold store_pin. now rewrite Ht, Hp. Qed.

(** ** The port look-up *)

Lemma u8_incr_small (n : nat) :
  (n < 255)%nat -> u8_incr (Z.of_nat n) = Z.of_nat (S n).
Proof.
  intros H. unfold u8_incr. rewrite Z.mod_small by lia. lia.
Qed.

Lemma get_table_loop_unfold fuel i pt pd w :
  get_table_loop fuel i pt pd w =
    if i <? Z.of_nat (length (io_manage_tables w)) then
      match fuel with
      | O => Timeout
      | S fuel' =>
          match io_manage_tables w !! Z.to_nat i with
          | Some t =>
              if port t =? pt then Ret (Some (Z.to_nat i), w)
              else get_table_loop fuel' (u8_incr i) pt pd w
          | None => Fault
          end
      end
    else Ret (None, w).
Proof.
  destruct fuel; simpl; unfold bind, nelems_tables, load_table, ret;
    destruct (i <? _); try reflexivity.
  destruct (io_manage_tables w !! Z.to_nat i) as [t|]; try reflexivity.
  now destruct (port t =? pt).
Qed.

(** The look-up reads the tables and writes nothing. *)
Lemma get_table_loop_pure fuel : forall i pt pd w r w',
  get_table_loop fuel i pt pd w = Ret (r, w') -> w' = w.
Proof.
  induction fuel as [|fuel IH]; intros i pt pd w r w';
    rewrite get_table_loop_unfold;
    destruct (i <? _); try discriminate; try (intros [= _ ->]; reflexivity).
  destruct (io_manage_tables w !! Z.to_nat i) as [t|]; try discriminate.
  destruct (port t =? pt).
  - now intros [= _ ->].
  - apply IH.
Qed.

(** Its result does not depend on the pad. *)
Lemma get_table_loop_pad fuel : forall i pt pd pd' w,
  get_table_loop fuel i pt pd w = get_table_loop fuel i pt pd' w.
Proof.
  induction fuel as [|fuel IH]; intros i pt pd pd' w;
    rewrite !(get_table_loop_unfold _ i); [reflexivity|].
  destruct (i <? _); [|reflexivity].
  destruct (io_manage_tables w !! Z.to_nat i) as [t|]; [|reflexivity].
  destruct (port t =? pt); [reflexivity|apply IH].
Qed.

(** A pointer it returns is an entry of the array, with the port asked
    for. *)
Lemma get_table_loop_sound fuel : forall i pt pd w k w',
  get_table_loop fuel i pt pd w = Ret (Some k, w') ->
  exists t, io_manage_tables w !! k = Some t /\ port t = pt.
Proof.
  induction fuel as [|fuel IH]; intros i pt pd w k w';
    rewrite get_table_loop_unfold;
    destruct (i <? _); try discriminate.
  destruct (io_manage_tables w !! Z.to_nat i) as [t|] eqn:Ht; try discriminate.
  destruct (port t =? pt) eqn:Hp.
  - intros [= <- _]. exists t. split; [exact Ht|]. now apply Z.eqb_eq.
  - apply IH.
Qed.

(** With at most 255 tables the loop ends, on the first table of the
    port or on [NULL]. *)
Lemma get_table_loop_spec pt pd w : forall l2 l1 fuel,
  io_manage_tables w = l1 ++ l2 ->
  (length (io_manage_tables w) <= 255)%nat ->
  (length l2 <= fuel)%nat ->
  get_table_loop fuel (Z.of_nat (length l1)) pt pd w =
    Ret ((fun x => (length l1 + x.1)%nat) <$> find_port l2 pt, w).
Proof.
  induction l2 as [|t l2 IH]; intros l1 fuel HT Hlen Hfuel;
    rewrite get_table_loop_unfold, HT, length_app; simpl length.
  - rewrite (proj2 (Z.ltb_ge _ _)) by lia. reflexivity.
  - rewrite (proj2 (Z.ltb_lt _ _)) by lia.
    destruct fuel as [|fuel]; [simpl in Hfuel; lia|].
    rewrite Nat2Z.id, <- HT.
    assert (Hk : io_manage_tables w !! length l1 = Some t).
    { rewrite HT. now rewrite list_lookup_middle. }
    rewrite Hk. unfold find_port. simpl list_find.
    destruct (decide (port t = pt)) as [Heq|Hne].
    + rewrite (proj2 (Z.eqb_eq _ _) Heq). simpl. now rewrite Nat.add_0_r.
    + rewrite (proj2 (Z.eqb_neq _ _) Hne).
      assert (Hl : (length l1 < 255)%nat).
      { rewrite HT, length_app in Hlen. simpl in Hlen. lia. }
      rewrite (u8_incr_small _ Hl).
      replace (S (length l1)) with (length (l1 ++ [t])) by (rewrite length_app; simpl; lia).
      rewrite (IH (l1 ++ [t]) fuel).
      * fold (find_port l2 pt). destruct (find_port l2 pt) as [[j u]|]; simpl; [|reflexivity].
        rewrite length_app. simpl. do 3 f_equal. lia.
      * rewrite HT, <- app_assoc. reflexivity.
      * exact Hlen.
      * simpl in Hfuel. lia.
Qed.

Lemma get_table_spec fuel pt pd w :
  (length (io_manage_tables w) <= 255)%nat ->
  (255 <= fuel)%nat ->
  io_manage_get_table fuel pt pd w = Ret (fst <$> find_port (io_manage_tables w) pt, w).
Proof.
  intros Hlen Hfuel. unfold io_manage_get_table.
  change 0 with (Z.of_nat (length (@nil IO_table))).
  rewrite (get_table_loop_spec pt pd w (io_manage_tables w) [] fuel eq_refl Hlen) by lia.
  destruct (find_port _ _) as [[j u]|]; reflexivity.
Qed.

(** With 256 tables or more and none for the port, the counter wraps
    and the look-up never returns. *)
Lemma get_table_unknown_port_diverges pt pd w :
  (256 <= length (io_manage_tables w))%nat ->
  Forall (fun t => port t <> pt) (io_manage_tables w) ->
  forall fuel i r, 0 <= i < 256 -> get_table_loop fuel i pt pd w <> Ret r.
Proof.
  intros Hlen Hno. induction fuel as [|fuel IH]; intros i r Hi;
    rewrite get_table_loop_unfold, (proj2 (Z.ltb_lt _ _)) by lia;
    [discriminate|].
  destruct (lookup_lt_is_Some_2 (io_manage_tables w) (Z.to_nat i)) as [t Ht];
    [lia|].
  rewrite Ht.
  rewrite (proj2 (Z.eqb_neq _ _) (proj1 (Forall_lookup _ _) Hno _ t Ht)).
  apply IH. unfold u8_incr. apply Z.mod_pos_bound. lia.
Qed.

(** When no two tables have the same port, every table is the one its
    port resolves to. *)
Lemma find_port_distinct tabs k t :
  NoDup (map port tabs) ->
  tabs !! k = Some t ->
  find_port tabs (port t) = Some (k, t).
Proof.
  intros Hnd Ht. apply list_find_Some. split; [exact Ht|]. split; [reflexivity|].
  intros j y Hy Hlt Heq.
  assert (Hj : map port tabs !! j = Some (port t)).
  { change (map port tabs) with (port <$> tabs).
    now rewrite list_lookup_fmap, Hy, <- Heq. }
  assert (Hk : map port tabs !! k = Some (port t)).
  { change (map port tabs) with (port <$> tabs).
    now rewrite list_lookup_fmap, Ht. }
  pose proof (NoDup_lookup _ _ _ _ Hnd Hj Hk). lia.
Qed.

(** ** The availability check *)

Lemma avail_test_true a p :
  avail_test a p = true <->
  current_alloc p = a \/ Z.land a (fn_available p) <> 0.
Proof.
  unfold avail_test. rewrite orb_true_iff, negb_true_iff, Z.eqb_eq, Z.eqb_neq.
  reflexivity.
Qed.

Lemma avail_test_false a p :
  avail_test a p = false <->
  current_alloc p <> a /\ Z.land a (fn_available p) = 0.
Proof.
  unfold avail_test. rewrite orb_false_iff, negb_false_iff, Z.eqb_eq, Z.eqb_neq.
  reflexivity.
Qed.

Lemma fn_avail_unfold pt pd a k w :
  io_manage_fn_avail pt pd a (Some k) w =
    match io_manage_tables w !! k with
    | Some t =>
        match pin t !! N.to_nat pd with
        | Some p => Ret (avail_test a p, w)
        | None => Fault
        end
    | None => Fault
    end.
Proof.
  unfold io_manage_fn_avail, load_pin, bind, load_table, ret, fault, avail_test.
  destruct (io_manage_tables w !! k) as [t|] eqn:Ht; [|reflexivity].
  destruct (pin t !! N.to_nat pd) as [p|] eqn:Hp; [|reflexivity].
  destruct (current_alloc p =? a); [reflexivity|].
  rewrite Ht, Hp. simpl. now destruct (Z.land a (fn_available p) =? 0).
Qed.

Lemma fn_avail_null pt pd a w :
  io_manage_fn_avail pt pd a None w = Ret (false, w).
Proof. reflexivity. Qed.

(** ** The commit *)

Lemma store_pin_twice k pd f g w t p :
  io_manage_tables w !! k = Some t ->
  pin t !! N.to_nat pd = Some p ->
  (let! _ := store_pin k pd f in store_pin k pd g) w =
    Ret (tt, mkWorld
               (<[k := mkTable (port t) (<[N.to_nat pd := g (f p)]> (pin t))]>
                  (io_manage_tables w))
               (pal_trace w)).
Proof.
  intros Ht Hp.
  rewrite (bind_Ret _ _ _ _ _ (store_pin_Some _ _ f _ _ _ Ht Hp)).
  pose proof (lookup_lt_Some _ _ _ Ht) as Hk.
  pose proof (lookup_lt_Some _ _ _ Hp) as Hj.
  rewrite (store_pin_Some k pd g _
             (mkTable (port t) (<[N.to_nat pd := f p]> (pin t))) (f p)); simpl.
  - now rewrite !list_insert_insert_eq.
  - now apply list_lookup_insert_eq.
  - now apply list_lookup_insert_eq.
Qed.

Lemma set_mode_commit fuel pt pd m a w k t p :
  io_manage_get_table fuel pt pd w = Ret (Some k, w) ->
  io_manage_tables w !! k = Some t ->
  pin t !! N.to_nat pd = Some p ->
  io_manage_set_mode fuel pt pd m a w =
    if avail_test a p then Ret (true, commit k t pt pd m a p w)
    else Ret (false, w).
Proof.
  intros Hg Ht Hp. unfold io_manage_set_mode.
  rewrite (bind_Ret _ _ _ _ _ Hg).
  unfold bind at 1. rewrite fn_avail_unfold, Ht, Hp.
  destruct (avail_test a p); [|reflexivity].
  pose proof (store_pin_twice k pd (set_current_mode m) (set_current_alloc a)
                w t p Ht Hp) as H2.
  unfold bind in H2 |- *.
  destruct (store_pin k pd (set_current_mode m) w) as [[[] w1]| |];
    try discriminate.
  rewrite H2. reflexivity.
Qed.

(** Every way [io_manage_set_mode] can return. *)
Lemma set_mode_inv fuel pt pd m a w b w' :
  io_manage_set_mode fuel pt pd m a w = Ret (b, w') ->
  (b = false /\ w' = w)
  \/ (b = true /\ exists k t p,
        io_manage_tables w !! k = Some t /\ port t = pt
        /\ pin t !! N.to_nat pd = Some p
        /\ avail_test a p = true
        /\ w' = commit k t pt pd m a p w).
Proof.
  intros H.
  destruct (io_manage_get_table fuel pt pd w) as [[r w1]| |] eqn:Hg;
    try (unfold io_manage_set_mode, bind in H; rewrite Hg in H; discriminate).
  assert (w1 = w) by (eapply get_table_loop_pure; exact Hg). subst w1.
  destruct r as [k|].
  - destruct (get_table_loop_sound _ _ _ _ _ _ _ Hg) as (t & Ht & Hpt).
    destruct (pin t !! N.to_nat pd) as [p|] eqn:Hp.
    + rewrite (set_mode_commit _ _ _ _ _ _ _ _ _ Hg Ht Hp) in H.
      destruct (avail_test a p) eqn:Hav; injection H as <- <-.
      * right. split; [reflexivity|]. exists k, t, p. auto.
      * left. auto.
    + unfold io_manage_set_mode in H. rewrite (bind_Ret _ _ _ _ _ Hg) in H.
      unfold bind in H. rewrite fn_avail_unfold, Ht, Hp in H. discriminate.
  - unfold io_manage_set_mode in H. rewrite (bind_Ret _ _ _ _ _ Hg) in H.
    unfold bind in H. rewrite fn_avail_null in H. simpl in H.
    injection H as <- <-. left. auto.
Qed.

(** With at most 255 tables, [io_manage_set_mode] is [set_mode_ref]. *)
Lemma set_mode_spec fuel pt pd m a w :
  (length (io_manage_tables w) <= 255)%nat ->
  (255 <= fuel)%nat ->
  io_manage_set_mode fuel pt pd m a w = set_mode_ref pt pd m a w.
Proof.
  intros Hlen Hfuel. pose proof (get_table_spec fuel pt pd w Hlen Hfuel) as Hg.
  unfold set_mode_ref.
  destruct (find_port (io_manage_tables w) pt) as [[k t]|] eqn:Hf; simpl in Hg.
  - apply list_find_Some in Hf as (Ht & _ & _).
    destruct (pin t !! N.to_nat pd) as [p|] eqn:Hp.
    + rewrite (set_mode_commit _ _ _ _ _ _ _ _ _ Hg Ht Hp). reflexivity.
    + unfold io_manage_set_mode. rewrite (bind_Ret _ _ _ _ _ Hg).
      unfold bind. now rewrite fn_avail_unfold, Ht, Hp.
  - unfold io_manage_set_mode. rewrite (bind_Ret _ _ _ _ _ Hg).
    unfold bind. now rewrite fn_avail_null.
Qed.

(** ** Loops with a [uint8_t] counter *)

(** Total correctness of a counting loop over at most 255 elements: an
    invariant indexed by the number of elements done. *)
Lemma for_u8_total (I : nat -> world -> Prop) (n : nat) (body : Z -> M unit) :
  (n <= 255)%nat ->
  (forall j w, (j < n)%nat -> I j w ->
     exists w', body (Z.of_nat j) w = Ret (tt, w') /\ I (S j) w') ->
  forall d j fuel w,
    (j + d = n)%nat -> (d <= fuel)%nat -> I j w ->
    exists w', for_u8 fuel (Z.of_nat j) (Z.of_nat n) body w = Ret (tt, w') /\ I n w'.
Proof.
  intros Hn Hbody. induction d as [|d IH]; intros j fuel w Hj Hfuel HI.
  - assert (j = n) by lia. subst j. exists w. split; [|exact HI].
    destruct fuel; simpl; now rewrite Z.ltb_irrefl.
  - destruct fuel as [|fuel]; [lia|]. simpl.
    rewrite (proj2 (Z.ltb_lt _ _)) by lia.
    destruct (Hbody j w ltac:(lia) HI) as (w1 & Hb & HI1).
    rewrite (bind_Ret _ _ _ _ _ Hb).
    rewrite u8_incr_small by lia.
    apply IH; [lia|lia|exact HI1].
Qed.

(** A loop over 256 or more elements never ends: the counter wraps
    before it reaches the bound. *)
Lemma for_u8_diverges (n : Z) (body : Z -> M unit) :
  256 <= n ->
  forall fuel i w r, 0 <= i < 256 -> for_u8 fuel i n body w <> Ret r.
Proof.
  intros Hn. induction fuel as [|fuel IH]; intros i w r Hi; simpl;
    rewrite (proj2 (Z.ltb_lt _ _)) by lia; [discriminate|].
  unfold bind. destruct (body i w) as [[[] w1]| |]; try discriminate.
  apply IH. unfold u8_incr. apply Z.mod_pos_bound. lia.
Qed.

(** Updating position [j] of a list whose first [j] elements are already
    mapped. *)
Lemma mapped_prefix_lookup {A} (f : A -> A) (l : list A) j x :
  l !! j = Some x -> (map f (take j l) ++ drop j l) !! j = Some x.
Proof.
  intros H. pose proof (lookup_lt_Some _ _ _ H) as Hlt.
  rewrite lookup_app_r; rewrite length_map, length_take, Nat.min_l by lia; [|lia].
  rewrite Nat.sub_diag, lookup_drop, Nat.add_0_r. exact H.
Qed.

Lemma mapped_prefix_step {A} (f : A -> A) (l : list A) j x :
  l !! j = Some x ->
  <[j := f x]> (map f (take j l) ++ drop j l) = map f (take (S j) l) ++ drop (S j) l.
Proof.
  intros H. pose proof (lookup_lt_Some _ _ _ H) as Hlt.
  rewrite insert_app_r_alt; rewrite length_map, length_take, Nat.min_l by lia; [|lia].
  rewrite Nat.sub_diag, (drop_S l x j H). simpl.
  rewrite (take_S_r l j x H), map_app, <- app_assoc. reflexivity.
Qed.

(** ** The reset *)

Lemma reset_pin_run k j w t p :
  io_manage_tables w !! k = Some t ->
  pin t !! j = Some p ->
  reset_pin k (Z.of_nat j) w =
    Ret (tt, mkWorld
               (<[k := mkTable (port t) (<[j := pin_defaults p]> (pin t))]>
                  (io_manage_tables w))
               (pal_trace w ++ [mkCall (port t) (pad p) (default_mode p)])).
Proof.
  intros Ht Hp. unfold reset_pin.
  assert (Hj : N.to_nat (Z.to_N (Z.of_nat j)) = j) by lia.
  pose proof (lookup_lt_Some _ _ _ Ht) as Hk.
  pose proof (lookup_lt_Some _ _ _ Hp) as Hlt.
  set (pd := Z.to_N (Z.of_nat j)) in *.
  assert (Hp' : pin t !! N.to_nat pd = Some p) by now rewrite Hj.
  rewrite (bind_Ret _ _ _ _ _ (load_pin_Some _ _ _ _ _ Ht Hp')).
  rewrite (bind_Ret _ _ _ _ _ (store_pin_Some _ _ _ _ _ _ Ht Hp')).
  set (p1 := set_current_mode (default_mode p) p).
  set (t1 := mkTable (port t) (<[N.to_nat pd := p1]> (pin t))).
  set (w1 := mkWorld (<[k := t1]> (io_manage_tables w)) (pal_trace w)).
  assert (Ht1 : io_manage_tables w1 !! k = Some t1)
    by (simpl; now apply list_lookup_insert_eq).
  assert (Hp1 : pin t1 !! N.to_nat pd = Some p1)
    by (simpl; apply list_lookup_insert_eq; now rewrite Hj).
  rewrite (bind_Ret _ _ _ _ _ (load_pin_Some _ _ _ _ _ Ht1 Hp1)).
  rewrite (bind_Ret _ _ _ _ _ (store_pin_Some _ _ _ _ _ _ Ht1 Hp1)).
  set (p2 := set_current_alloc (default_alloc p1) p1).
  set (t2 := mkTable (port t1) (<[N.to_nat pd := p2]> (pin t1))).
  set (w2 := mkWorld (<[k := t2]> (io_manage_tables w1)) (pal_trace w1)).
  assert (Ht2 : io_manage_tables w2 !! k = Some t2).
  { simpl. apply list_lookup_insert_eq. now rewrite length_insert. }
  assert (Hp2 : pin t2 !! N.to_nat pd = Some p2).
  { simpl. apply list_lookup_insert_eq. now rewrite length_insert, Hj. }
  rewrite (bind_Ret _ _ _ _ _ (load_table_Some _ _ _ Ht2)).
  rewrite (bind_Ret _ _ _ _ _ (load_pin_Some _ _ _ _ _ Ht2 Hp2)).
  unfold palSetPadMode, w2, t2, w1, t1, p2, p1, pin_defaults. simpl.
  rewrite !list_insert_insert_eq, Hj. reflexivity.
Qed.

Lemma for_u8_partial (I : nat -> world -> Prop) (n : nat) (body : Z -> M unit) :
  (n <= 255)%nat ->
  (forall j w w', (j < n)%nat -> I j w ->
     body (Z.of_nat j) w = Ret (tt, w') -> I (S j) w') ->
  forall fuel j w w',
    (j <= n)%nat -> I j w ->
    for_u8 fuel (Z.of_nat j) (Z.of_nat n) body w = Ret (tt, w') -> I n w'.
Proof.
  intros Hn Hbody. induction fuel as [|fuel IH]; intros j w w' Hj HI; simpl;
    destruct (Z.ltb_spec (Z.of_nat j) (Z.of_nat n)) as [Hlt|Hge];
    try discriminate;
    try (assert (j = n) by lia; subst j; unfold ret; now intros [= <-]).
  intros H. apply bind_inv in H as ([] & w1 & Hb & Hrest).
  rewrite u8_incr_small in Hrest by lia.
  apply (IH (S j) w1 w'); [lia| |exact Hrest].
  apply (Hbody j w w1); [lia|exact HI|exact Hb].
Qed.

(** One round of the inner loop. *)
Lemma pins_done_step w k t j v :
  io_manage_tables w !! k = Some t ->
  (j < length (pin t))%nat ->
  pins_done w k t j v ->
  exists v', reset_pin k (Z.of_nat j) v = Ret (tt, v') /\ pins_done w k t (S j) v'.
Proof.
  intros Ht Hj [HT Htr].
  destruct (lookup_lt_is_Some_2 (pin t) j Hj) as [p Hp].
  pose proof (lookup_lt_Some _ _ _ Ht) as Hk.
  assert (Hv : io_manage_tables v !! k =
               Some (mkTable (port t)
                       (map pin_defaults (take j (pin t)) ++ drop j (pin t))))
    by (rewrite HT; now apply list_lookup_insert_eq).
  eexists. split.
  - apply (reset_pin_run k j v _ p Hv). simpl. now apply mapped_prefix_lookup.
  - split; simpl.
    + rewrite HT, list_insert_insert_eq.
      now rewrite (mapped_prefix_step pin_defaults (pin t) j p Hp).
    + rewrite Htr, (take_S_r (pin t) j p Hp), map_app, <- app_assoc. reflexivity.
Qed.

Lemma pins_done_start w k t :
  io_manage_tables w !! k = Some t -> pins_done w k t 0 w.
Proof.
  intros Ht. split; simpl.
  - symmetry. apply list_insert_id. rewrite Ht. now destruct t.
  - now rewrite app_nil_r.
Qed.

Lemma pins_done_end w k t v :
  pins_done w k t (length (pin t)) v ->
  v = mkWorld (<[k := table_defaults t]> (io_manage_tables w))
              (pal_trace w ++ reset_calls t).
Proof.
  intros [HT Htr]. destruct v as [T' tr']. simpl in HT, Htr. subst T' tr'.
  rewrite firstn_all, drop_all, app_nil_r. reflexivity.
Qed.

(** The inner loop resets every pin of table [k] and calls the HAL once
    for each, in the order of the array. *)
Lemma reset_table_run fuel k w t :
  io_manage_tables w !! k = Some t ->
  (length (pin t) <= 255)%nat ->
  (255 <= fuel)%nat ->
  reset_table fuel (Z.of_nat k) w =
    Ret (tt, mkWorld (<[k := table_defaults t]> (io_manage_tables w))
                     (pal_trace w ++ reset_calls t)).
Proof.
  intros Ht Hlen Hfuel. unfold reset_table. rewrite Nat2Z.id.
  rewrite (bind_Ret _ _ _ _ _ (load_table_Some _ _ _ Ht)).
  destruct (for_u8_total (pins_done w k t) (length (pin t)) (reset_pin k) Hlen)
    with (d := length (pin t)) (j := 0%nat) (fuel := fuel) (w := w)
    as (w' & Hrun & Hend).
  - intros j v Hj HI. now apply pins_done_step.
  - reflexivity.
  - lia.
  - now apply pins_done_start.
  - change (Z.of_nat 0) with 0 in Hrun. rewrite Hrun.
    now rewrite (pins_done_end _ _ _ _ Hend).
Qed.

(** Whatever the fuel and the size of the array, that is the only state
    the inner loop can return. *)
Lemma reset_table_ret fuel k w t w' :
  io_manage_tables w !! k = Some t ->
  reset_table fuel (Z.of_nat k) w = Ret (tt, w') ->
  w' = mkWorld (<[k := table_defaults t]> (io_manage_tables w))
               (pal_trace w ++ reset_calls t).
Proof.
  intros Ht. unfold reset_table. rewrite Nat2Z.id.
  rewrite (bind_Ret _ _ _ _ _ (load_table_Some _ _ _ Ht)). intros Hrun.
  destruct (le_lt_dec (length (pin t)) 255) as [Hlen|Hlen].
  - apply pins_done_end.
    apply (for_u8_partial (pins_done w k t) (length (pin t)) (reset_pin k) Hlen)
      with (fuel := fuel) (j := 0%nat) (w := w).
    + intros j v v' Hj HI Hb.
      destruct (pins_done_step w k t j v Ht Hj HI) as (v2 & Hb2 & HI2).
      rewrite Hb in Hb2. now injection Hb2 as ->.
    + lia.
    + now apply pins_done_start.
    + exact Hrun.
  - exfalso. revert Hrun. apply for_u8_diverges; lia.
Qed.

Lemma fits_u8_tables w :
  fits_u8 w = true -> (length (io_manage_tables w) <= 255)%nat.
Proof.
  unfold fits_u8. rewrite andb_true_iff, Nat.leb_le. tauto.
Qed.

Lemma fits_u8_pins w k t :
  fits_u8 w = true -> io_manage_tables w !! k = Some t ->
  (length (pin t) <= 255)%nat.
Proof.
  unfold fits_u8. rewrite andb_true_iff, forallb_forall. intros [_ H] Ht.
  apply Nat.leb_le, H, list_elem_of_In, list_elem_of_lookup. eauto.
Qed.

(** One round of the outer loop. *)
Lemma tables_done_next w i v t :
  io_manage_tables w !! i = Some t ->
  tables_done w i v ->
  io_manage_tables v !! i = Some t
  /\ tables_done w (S i)
       (mkWorld (<[i := table_defaults t]> (io_manage_tables v))
                (pal_trace v ++ reset_calls t)).
Proof.
  intros Ht [HT Htr]. split.
  - rewrite HT. now apply mapped_prefix_lookup.
  - split; simpl.
    + rewrite HT. now apply mapped_prefix_step.
    + rewrite Htr, (take_S_r _ i t Ht), flat_map_app, <- app_assoc. simpl.
      now rewrite app_nil_r.
Qed.

Lemma tables_done_start w : tables_done w 0 w.
Proof. split; simpl; [reflexivity|now rewrite app_nil_r]. Qed.

Lemma tables_done_end w v :
  tables_done w (length (io_manage_tables w)) v -> v = reset_world w.
Proof.
  intros [HT Htr]. destruct v as [T' tr']. simpl in HT, Htr. subst T' tr'.
  unfold reset_world. now rewrite firstn_all, drop_all, app_nil_r.
Qed.

(** With arrays that the counters can count, the reset ends in
    [reset_world]. *)
Lemma to_defaults_run fuel w :
  fits_u8 w = true -> (255 <= fuel)%nat ->
  io_manage_to_defaults fuel w = Ret (tt, reset_world w).
Proof.
  intros Hfit Hfuel. unfold io_manage_to_defaults, bind at 1, nelems_tables.
  destruct (for_u8_total (tables_done w) (length (io_manage_tables w))
              (reset_table fuel) (fits_u8_tables w Hfit))
    with (d := length (io_manage_tables w)) (j := 0%nat) (fuel := fuel) (w := w)
    as (w' & Hrun & Hend).
  - intros i v Hi HI.
    destruct (lookup_lt_is_Some_2 _ i Hi) as [t Ht].
    destruct (tables_done_next w i v t Ht HI) as [Hv Hnext].
    eexists. split; [|exact Hnext].
    apply reset_table_run; [exact Hv| |exact Hfuel].
    now apply (fits_u8_pins w i).
  - reflexivity.
  - pose proof (fits_u8_tables w Hfit). lia.
  - apply tables_done_start.
  - change (Z.of_nat 0) with 0 in Hrun. rewrite Hrun.
    now rewrite (tables_done_end _ _ Hend).
Qed.

(** Whatever the fuel and the sizes, [reset_world] is the only state the
    reset can return. *)
Lemma to_defaults_ret fuel w w' :
  io_manage_to_defaults fuel w = Ret (tt, w') -> w' = reset_world w.
Proof.
  unfold io_manage_to_defaults, bind at 1, nelems_tables. intros Hrun.
  destruct (le_lt_dec (length (io_manage_tables w)) 255) as [Hlen|Hlen].
  - apply tables_done_end.
    apply (for_u8_partial (tables_done w) (length (io_manage_tables w))
             (reset_table fuel) Hlen) with (fuel := fuel) (j := 0%nat) (w := w).
    + intros i v v' Hi HI Hb.
      destruct (lookup_lt_is_Some_2 _ i Hi) as [t Ht].
      destruct (tables_done_next w i v t Ht HI) as [Hv Hnext].
      now rewrite (reset_table_ret fuel i v t v' Hv Hb).
    + lia.
    + apply tables_done_start.
    + exact Hrun.
  - exfalso. revert Hrun. apply for_u8_diverges; lia.
Qed.

(** With more tables than the counter can count the reset never
    returns. *)
Lemma to_defaults_diverges fuel w r :
  (256 <= length (io_manage_tables w))%nat ->
  io_manage_to_defaults fuel w <> Ret r.
Proof.
  intros Hlen. unfold io_manage_to_defaults, bind at 1, nelems_tables.
  apply for_u8_diverges; lia.
Qed.

(** ** Facts about the reference states *)

Lemma pin_defaults_at_defaults p : at_defaults (pin_defaults p).
Proof. split; reflexivity. Qed.

Lemma pin_defaults_fixed p : at_defaults p -> pin_defaults p = p.
Proof. destruct p; intros [H1 H2]; simpl in *; subst; reflexivity. Qed.


Lemma reset_world_booted w : booted (reset_world w).
Proof.
  unfold booted, reset_world. simpl. apply Forall_forall.
  intros t' Hin. apply list_elem_of_In, in_map_iff in Hin as (t & <- & _).
  simpl. apply Forall_forall. intros p' Hp.
  apply list_elem_of_In, in_map_iff in Hp as (p & <- & _).
  apply pin_defaults_at_defaults.
Qed.

Lemma table_defaults_fixed t :
  Forall at_defaults (pin t) -> table_defaults t = t.
Proof.
  destruct t as [pt ps]. unfold table_defaults. simpl. intros H. f_equal.
  induction H as [|p ps Hp _ IH]; simpl; [reflexivity|].
  now rewrite IH, pin_defaults_fixed.
Qed.

Lemma booted_fixed w :
  booted w -> map table_defaults (io_manage_tables w) = io_manage_tables w.
Proof.
  unfold booted. induction 1 as [|t ts Ht _ IH]; simpl; [reflexivity|].
  now rewrite IH, table_defaults_fixed.
Qed.

(** A commit changes no field that the reset reads. *)
Lemma commit_same_defaults k t pt pd m a p w :
  io_manage_tables w !! k = Some t ->
  pin t !! N.to_nat pd = Some p ->
  map table_defaults (io_manage_tables (commit k t pt pd m a p w))
  = map table_defaults (io_manage_tables w).
Proof.
  intros Ht Hp. unfold commit. simpl.
  change (map table_defaults) with (fmap (M := list) table_defaults).
  rewrite list_fmap_insert. apply list_insert_id.
  rewrite list_lookup_fmap, Ht. simpl. f_equal.
  unfold table_defaults. simpl. f_equal.
  change (map pin_defaults) with (fmap (M := list) pin_defaults).
  rewrite list_fmap_insert. symmetry. apply list_insert_id.
  now rewrite list_lookup_fmap, Hp.
Qed.

Lemma serve_same_defaults fuel r w w' :
  serve fuel r w = Ret (tt, w') ->
  map table_defaults (io_manage_tables w') = map table_defaults (io_manage_tables w).
Proof.
  destruct r as [pt pd m a|]; simpl.
  - intros H. apply bind_inv in H as (b & w1 & Hs & Hr).
    unfold ret in Hr. injection Hr as ->.
    apply set_mode_inv in Hs as [[_ ->]|(_ & k & t & p & Ht & _ & Hp & _ & ->)];
      [reflexivity|now apply commit_same_defaults].
  - intros H. apply to_defaults_ret in H as ->.
    unfold reset_world. simpl. rewrite map_map. apply map_ext.
    intros t. unfold table_defaults. simpl. f_equal. rewrite map_map.
    apply map_ext. reflexivity.
Qed.

Lemma serve_all_same_defaults fuel rs : forall w w',
  serve_all fuel rs w = Ret (tt, w') ->
  map table_defaults (io_manage_tables w') = map table_defaults (io_manage_tables w).
Proof.
  induction rs as [|r rs IH]; intros w w'; simpl.
  - unfold ret. now intros [= <-].
  - intros H. apply bind_inv in H as ([] & w1 & Hs & Hr).
    rewrite (IH _ _ Hr). now apply (serve_same_defaults fuel r).
Qed.

(** ** Invariants of the pins

    A property of pin records that holds of a pin in its reset state and
    survives a commit with a tag that passed the availability test holds
    of every pin after every session started from a booted registry. *)
Section PinInvariant.

Variable Q : IO_pin -> Prop.
Variable legal : IO_alloc -> Prop.

Hypothesis Q_defaults : forall p, at_defaults p -> Q p.
Hypothesis Q_commit : forall p m a,
  Q p -> legal a -> avail_test a p = true -> Q (commit_pin m a p).





End PinInvariant.





(** With tags of several bits that is lost: the owner of pad 1 of port B
    ends with a bit that [fn_available] does not have. *)
Lemma multi_bit_session_not_contained :
  ~ all_pins owner_contained Sample.after_session.
Proof.
  intros H.
  pose proof (proj1 (Forall_lookup _ _) H 1%nat _ eq_refl) as Hpins.
  pose proof (proj1 (Forall_lookup _ _) Hpins 1%nat _ eq_refl) as [Hd|[_ Hc]];
    vm_compute in Hd || vm_compute in Hc; discriminate.
Qed.

Lemma reset_world_fits w : fits_u8 w = true -> fits_u8 (reset_world w) = true.
Proof.
  unfold fits_u8, reset_world. simpl. rewrite length_map, !andb_true_iff.
  intros [H1 H2]. split; [exact H1|].
  rewrite forallb_forall in *. intros t' Hin.
  apply in_map_iff in Hin as (t & <- & Hin). simpl. rewrite length_map. auto.
Qed.

(** ** The running example

    The code on the example board: a claim, a refused claim, a reset, a
    request for an unknown port, and the fuel a reset needs. *)

Example claim_adc :
  io_manage_set_mode 255 Sample.GPIOA 0%N Sample.MODE_ANALOG Sample.IO_ADC Sample.boot
  = Ret (true, Sample.after_adc).
Proof. vm_compute. reflexivity. Qed.

Example refuse_spi :
  io_manage_set_mode 255 Sample.GPIOA 0%N Sample.MODE_OUTPUT Sample.IO_SPI
    Sample.after_adc
  = Ret (false, Sample.after_adc).
Proof. vm_compute. reflexivity. Qed.

Example reset_after_adc :
  io_manage_to_defaults 255 Sample.after_adc
  = Ret (tt, mkWorld (io_manage_tables Sample.boot)
                     (pal_trace Sample.after_adc
                      ++ reset_calls Sample.table_a ++ reset_calls Sample.table_b)).
Proof. vm_compute. reflexivity. Qed.

Example unknown_port :
  io_manage_set_mode 255 Sample.GPIOC 1%N Sample.MODE_OUTPUT Sample.IO_GPIO
    Sample.after_adc
  = Ret (false, Sample.after_adc).
Proof. vm_compute. reflexivity. Qed.

Example owner_none_reasserted :
  io_manage_set_mode 255 Sample.GPIOB 2%N Sample.MODE_INPUT Sample.IO_NONE Sample.boot
  = Ret (true, mkWorld (io_manage_tables Sample.boot)
                       [mkCall Sample.GPIOB 2%N Sample.MODE_INPUT]).
Proof. vm_compute. reflexivity. Qed.

Example reset_short_of_fuel :
  io_manage_to_defaults 2 Sample.after_adc = Timeout.
Proof. vm_compute. reflexivity. Qed.

Example session_served :
  serve_all 255 Sample.session Sample.boot = Ret (tt, Sample.after_session).
Proof. vm_compute. reflexivity. Qed.

(** * The claims *)

(** ** C1 *)




(** ** C2 *)

(** C2. When [io_manage_set_mode] returns false the state it leaves is
    the state it found: no field of any pin has changed and the trace of
    [palSetPadMode] calls has not grown. *)
Theorem C2_failure_atomic fuel pt pd m a w w' :
  io_manage_set_mode fuel pt pd m a w = Ret (false, w') ->
  io_manage_tables w' = io_manage_tables w /\ pal_trace w' = pal_trace w.
Proof.
  intros H. apply set_mode_inv in H as [[_ ->]|[Hb _]]; [auto|discriminate].
Qed.

Lemma C2_failure_atomic_witness :
  exists w',
    io_manage_set_mode 255 Sample.GPIOA 0%N Sample.MODE_OUTPUT Sample.IO_SPI
      Sample.after_adc = Ret (false, w')
    /\ io_manage_tables w' = io_manage_tables Sample.after_adc
    /\ pal_trace w' = pal_trace Sample.after_adc.
Proof.
  eexists. split.
  - vm_compute. reflexivity.
  - apply (C2_failure_atomic 255 Sample.GPIOA 0%N Sample.MODE_OUTPUT Sample.IO_SPI).
    vm_compute. reflexivity.
Defined.

(** ** C3 *)

(** C3. [io_manage_fn_avail] answers true exactly when the table pointer
    is not [NULL], the pin record is there, and the requested tag is the
    pin's current owner or has a bit in common with [fn_available],
    whoever owns the pin; it answers false for [NULL] and when neither
    condition holds; and whatever it answers, it leaves the state as it
    was. *)
Theorem C3_fn_avail pt pd a table w :
  (io_manage_fn_avail pt pd a table w = Ret (true, w) <->
   exists k t p,
     table = Some k /\ io_manage_tables w !! k = Some t
     /\ pin t !! N.to_nat pd = Some p
     /\ (current_alloc p = a \/ Z.land a (fn_available p) <> 0))
  /\ (io_manage_fn_avail pt pd a table w = Ret (false, w) <->
      table = None
      \/ exists k t p,
           table = Some k /\ io_manage_tables w !! k = Some t
           /\ pin t !! N.to_nat pd = Some p
           /\ current_alloc p <> a /\ Z.land a (fn_available p) = 0)
  /\ (forall b w', io_manage_fn_avail pt pd a table w = Ret (b, w') -> w' = w).
Proof.
  assert (Hsame : forall k t p k' t' p',
            io_manage_tables w !! k = Some t -> pin t !! N.to_nat pd = Some p ->
            Some k = Some k' -> io_manage_tables w !! k' = Some t' ->
            pin t' !! N.to_nat pd = Some p' -> p' = p).
  { intros k t p k' t' p' Ht Hp [= <-] Ht' Hp'. congruence. }
  destruct table as [k|]; [rewrite fn_avail_unfold|rewrite fn_avail_null].
  - destruct (io_manage_tables w !! k) as [t|] eqn:Ht;
      [destruct (pin t !! N.to_nat pd) as [p|] eqn:Hp|].
    + destruct (avail_test a p) eqn:Hav; split; [| split | | split].
      * split; [intros _|reflexivity].
        exists k, t, p. apply avail_test_true in Hav. auto.
      * split; [discriminate|].
        intros [Hn|(k' & t' & p' & Hk & Ht' & Hp' & Hno)]; [discriminate|].
        rewrite (Hsame _ _ _ _ _ _ Ht Hp Hk Ht' Hp') in Hno.
        apply avail_test_false in Hno. congruence.
      * now intros b w' [= _ <-].
      * split; [discriminate|].
        intros (k' & t' & p' & Hk & Ht' & Hp' & Hyes).
        rewrite (Hsame _ _ _ _ _ _ Ht Hp Hk Ht' Hp') in Hyes.
        apply avail_test_true in Hyes. congruence.
      * split; [intros _|reflexivity].
        right. exists k, t, p. apply avail_test_false in Hav. tauto.
      * now intros b w' [= _ <-].
    + split; [|split]; try discriminate.
      * split; [discriminate|].
        intros (k' & t' & p' & [= <-] & Ht' & Hp' & _). congruence.
      * split; [discriminate|].
        intros [Hn|(k' & t' & p' & [= <-] & Ht' & Hp' & _)];
          [discriminate|congruence].
    + split; [|split]; try discriminate.
      * split; [discriminate|].
        intros (k' & t' & p' & [= <-] & Ht' & _). congruence.
      * split; [discriminate|].
        intros [Hn|(k' & t' & p' & [= <-] & Ht' & _)];
          [discriminate|congruence].
  - split; [|split].
    + split; [discriminate|]. intros (k & t & p & Hk & _). discriminate.
    + split; [intros _; now left|reflexivity].
    + now intros b w' [= _ <-].
Qed.

(** On the running example: the SPI tag is refused on pad 0 of port A,
    the GPIO tag is accepted there although the ADC owns the pad. *)
Lemma C3_fn_avail_witness :
  io_manage_fn_avail Sample.GPIOA 0%N Sample.IO_GPIO (Some 0%nat) Sample.after_adc
    = Ret (true, Sample.after_adc)
  /\ io_manage_fn_avail Sample.GPIOA 0%N Sample.IO_SPI (Some 0%nat) Sample.after_adc
    = Ret (false, Sample.after_adc).
Proof.
  split.
  - apply (proj1 (C3_fn_avail Sample.GPIOA 0%N Sample.IO_GPIO (Some 0%nat)
                    Sample.after_adc)).
    eexists 0%nat, _, _. repeat split; try reflexivity. right. vm_compute. discriminate.
  - reflexivity.
Defined.

(** ** C4 *)

(** C4, as amended. A request for a port that has no table, on a board
    with at most 255 tables, is answered false and leaves the state as
    it was. *)
Theorem C4_unknown_port fuel pt pd m a w :
  (length (io_manage_tables w) <= 255)%nat ->
  (255 <= fuel)%nat ->
  Forall (fun t => port t <> pt) (io_manage_tables w) ->
  io_manage_set_mode fuel pt pd m a w = Ret (false, w).
Proof.
  intros Hlen Hfuel Hno. rewrite set_mode_spec by assumption.
  unfold set_mode_ref, find_port.
  destruct (list_find _ _) as [[k t]|] eqn:Hf; [|reflexivity].
  apply list_find_Some in Hf as (Ht & Hpt & _).
  exfalso. exact (proj1 (Forall_lookup _ _) Hno k t Ht Hpt).
Qed.

Lemma C4_unknown_port_witness :
  io_manage_set_mode 255 Sample.GPIOC 0%N Sample.MODE_OUTPUT Sample.IO_GPIO
    Sample.after_adc = Ret (false, Sample.after_adc).
Proof.
  apply C4_unknown_port.
  - simpl. lia.
  - lia.
  - repeat constructor; discriminate.
Defined.

(** C4, as stated, fails: pad 3 of port A is absent from the tables (the
    port has three pins), and the request is not answered false; the
    unchecked index leaves the array. *)
Lemma C4_absent_pad_counterexample :
  absent Sample.boot Sample.GPIOA 3%N
  /\ io_manage_set_mode 255 Sample.GPIOA 3%N Sample.MODE_OUTPUT Sample.IO_GPIO
       Sample.boot = Fault
  /\ io_manage_set_mode 255 Sample.GPIOA 3%N Sample.MODE_OUTPUT Sample.IO_GPIO
       Sample.boot <> Ret (false, Sample.boot).
Proof.
  split; [|split].
  - vm_compute. lia.
  - vm_compute. reflexivity.
  - vm_compute. discriminate.
Qed.

(** ** C5 *)

(** C5. If the port resolves to a table, the pad to a pin of it, and the
    tag [g] has no bit in the pin's [fn_available] and is not the pin's
    current owner, the request is answered false and the state is left as
    it was. *)
Theorem C5_capability_enforcement fuel pt pd m g w k t p :
  (length (io_manage_tables w) <= 255)%nat ->
  (255 <= fuel)%nat ->
  find_port (io_manage_tables w) pt = Some (k, t) ->
  pin t !! N.to_nat pd = Some p ->
  Z.land g (fn_available p) = 0 ->
  g <> current_alloc p ->
  io_manage_set_mode fuel pt pd m g w = Ret (false, w).
Proof.
  intros Hlen Hfuel Hf Hp Hand Hne. rewrite set_mode_spec by assumption.
  unfold set_mode_ref. rewrite Hf, Hp.
  assert (Hav : avail_test g p = false) by (apply avail_test_false; auto).
  now rewrite Hav.
Qed.

Lemma C5_capability_enforcement_witness :
  io_manage_set_mode 255 Sample.GPIOA 0%N Sample.MODE_OUTPUT Sample.IO_SPI
    Sample.after_adc = Ret (false, Sample.after_adc).
Proof.
  eapply (C5_capability_enforcement 255 Sample.GPIOA 0%N Sample.MODE_OUTPUT
            Sample.IO_SPI Sample.after_adc 0%nat).
  - simpl. lia.
  - lia.
  - reflexivity.
  - reflexivity.
  - reflexivity.
  - discriminate.
Defined.

(** ** C6 *)

(** C6. Asking again for the owner and the mode a pin already has is
    answered true and leaves every table as it was; the HAL is called
    once more with the same mode. *)
Theorem C6_idempotent_reassertion fuel pt pd w k t p :
  (length (io_manage_tables w) <= 255)%nat ->
  (255 <= fuel)%nat ->
  find_port (io_manage_tables w) pt = Some (k, t) ->
  pin t !! N.to_nat pd = Some p ->
  exists w',
    io_manage_set_mode fuel pt pd (current_mode p) (current_alloc p) w = Ret (true, w')
    /\ io_manage_tables w' = io_manage_tables w
    /\ pal_trace w' = pal_trace w ++ [mkCall pt pd (current_mode p)].
Proof.
  intros Hlen Hfuel Hf Hp. rewrite set_mode_spec by assumption.
  unfold set_mode_ref. rewrite Hf, Hp.
  assert (Hav : avail_test (current_alloc p) p = true)
    by (apply avail_test_true; now left).
  rewrite Hav. eexists. split; [reflexivity|]. split; [|reflexivity].
  apply list_find_Some in Hf as (Ht & _ & _). unfold commit. simpl.
  apply list_insert_id. rewrite Ht. f_equal.
  destruct t as [tp ps]. simpl in *. f_equal. symmetry.
  apply list_insert_id. rewrite Hp. f_equal. now destruct p.
Qed.

Lemma C6_idempotent_reassertion_witness :
  exists w',
    io_manage_set_mode 255 Sample.GPIOA 0%N Sample.MODE_ANALOG Sample.IO_ADC
      Sample.after_adc = Ret (true, w')
    /\ io_manage_tables w' = io_manage_tables Sample.after_adc
    /\ pal_trace w' =
         pal_trace Sample.after_adc
         ++ [mkCall Sample.GPIOA 0%N Sample.MODE_ANALOG].
Proof.
  apply (C6_idempotent_reassertion 255 Sample.GPIOA 0%N Sample.after_adc 0%nat
           Sample.table_a_adc Sample.pin_adc).
  - simpl. lia.
  - lia.
  - reflexivity.
  - reflexivity.
Defined.

(** ** C7 *)

(** C7. On a board whose arrays the [uint8_t] counters can count, the
    reset returns; afterwards every pin has its default mode and owner,
    nothing else in the tables has changed, and [palSetPadMode] has been
    called once for every pin, table by table and pin by pin, with the
    default mode.  If the state came from a booted registry through any
    requests, the tables are those of the booted registry again. *)
Theorem C7_reset_restores_defaults fuel w :
  fits_u8 w = true ->
  (255 <= fuel)%nat ->
  exists w',
    io_manage_to_defaults fuel w = Ret (tt, w')
    /\ (forall k t j p,
          io_manage_tables w' !! k = Some t -> pin t !! j = Some p ->
          current_mode p = default_mode p /\ current_alloc p = default_alloc p)
    /\ io_manage_tables w' = map table_defaults (io_manage_tables w)
    /\ pal_trace w' = pal_trace w ++ flat_map reset_calls (io_manage_tables w)
    /\ (forall w0 rs,
          booted w0 -> serve_all fuel rs w0 = Ret (tt, w) ->
          io_manage_tables w' = io_manage_tables w0).
Proof.
  intros Hfit Hfuel. exists (reset_world w).
  split; [now apply to_defaults_run|].
  split; [|split; [reflexivity|split; [reflexivity|]]].
  - intros k t j p Ht Hp.
    pose proof (reset_world_booted w) as Hb.
    pose proof (proj1 (Forall_lookup _ _) Hb k t Ht) as Hpins.
    exact (proj1 (Forall_lookup _ _) Hpins j p Hp).
  - intros w0 rs Hboot Hrun. simpl.
    rewrite (serve_all_same_defaults _ _ _ _ Hrun).
    now apply booted_fixed.
Qed.

Lemma C7_reset_restores_defaults_witness :
  exists w',
    io_manage_to_defaults 255 Sample.after_session = Ret (tt, w')
    /\ (forall k t j p,
          io_manage_tables w' !! k = Some t -> pin t !! j = Some p ->
          current_mode p = default_mode p /\ current_alloc p = default_alloc p)
    /\ io_manage_tables w' = map table_defaults (io_manage_tables Sample.after_session)
    /\ pal_trace w' =
         pal_trace Sample.after_session
         ++ flat_map reset_calls (io_manage_tables Sample.after_session)
    /\ (forall w0 rs,
          booted w0 -> serve_all 255 rs w0 = Ret (tt, Sample.after_session) ->
          io_manage_tables w' = io_manage_tables w0).
Proof.
  apply (C7_reset_restores_defaults 255 Sample.after_session).
  - reflexivity.
  - lia.
Defined.

(** ** C8 *)

(** C8. A second reset right after a reset returns and leaves the tables
    exactly as the first one left them. *)
Theorem C8_reset_idempotent fuel w :
  fits_u8 w = true ->
  (255 <= fuel)%nat ->
  exists w1 w2,
    io_manage_to_defaults fuel w = Ret (tt, w1)
    /\ io_manage_to_defaults fuel w1 = Ret (tt, w2)
    /\ io_manage_tables w2 = io_manage_tables w1.
Proof.
  intros Hfit Hfuel. exists (reset_world w), (reset_world (reset_world w)).
  split; [now apply to_defaults_run|].
  split; [apply to_defaults_run; [now apply reset_world_fits|exact Hfuel]|].
  apply booted_fixed, reset_world_booted.
Qed.

Lemma C8_reset_idempotent_witness :
  exists w1 w2,
    io_manage_to_defaults 255 Sample.after_session = Ret (tt, w1)
    /\ io_manage_to_defaults 255 w1 = Ret (tt, w2)
    /\ io_manage_tables w2 = io_manage_tables w1.
Proof.
  apply (C8_reset_idempotent 255 Sample.after_session).
  - reflexivity.
  - lia.
Defined.

(** ** C9 *)

(** C9. The look-up returns the same pointer whatever the pad, and for a
    port that resolves to a table a pad at or past the end of that
    table's pin array is not rejected: the availability check and the
    commit both index the array with it and leave its bounds. *)
Theorem C9_pad_not_validated fuel pt pd m a w k t :
  (length (io_manage_tables w) <= 255)%nat ->
  (255 <= fuel)%nat ->
  find_port (io_manage_tables w) pt = Some (k, t) ->
  (length (pin t) <= N.to_nat pd)%nat ->
  (forall pd', io_manage_get_table fuel pt pd' w = io_manage_get_table fuel pt pd w)
  /\ io_manage_get_table fuel pt pd w = Ret (Some k, w)
  /\ io_manage_fn_avail pt pd a (Some k) w = Fault
  /\ io_manage_set_mode fuel pt pd m a w = Fault
  /\ (forall b w', io_manage_set_mode fuel pt pd m a w <> Ret (b, w')).
Proof.
  intros Hlen Hfuel Hf Hpd.
  assert (Hg : io_manage_get_table fuel pt pd w = Ret (Some k, w))
    by (rewrite get_table_spec by assumption; now rewrite Hf).
  assert (Hp : pin t !! N.to_nat pd = None) by now apply lookup_ge_None.
  assert (Hs : io_manage_set_mode fuel pt pd m a w = Fault).
  { rewrite set_mode_spec by assumption. unfold set_mode_ref. now rewrite Hf, Hp. }
  apply list_find_Some in Hf as (Ht & _ & _).
  split; [intros pd'; apply get_table_loop_pad|].
  split; [exact Hg|].
  split; [now rewrite fn_avail_unfold, Ht, Hp|].
  split; [exact Hs|].
  intros b w'. rewrite Hs. discriminate.
Qed.

Lemma C9_pad_not_validated_witness :
  (forall pd',
     io_manage_get_table 255 Sample.GPIOB pd' Sample.boot
     = io_manage_get_table 255 Sample.GPIOB 16%N Sample.boot)
  /\ io_manage_get_table 255 Sample.GPIOB 16%N Sample.boot = Ret (Some 1%nat, Sample.boot)
  /\ io_manage_fn_avail Sample.GPIOB 16%N Sample.IO_GPIO (Some 1%nat) Sample.boot = Fault
  /\ io_manage_set_mode 255 Sample.GPIOB 16%N Sample.MODE_OUTPUT Sample.IO_GPIO
       Sample.boot = Fault
  /\ (forall b w',
        io_manage_set_mode 255 Sample.GPIOB 16%N Sample.MODE_OUTPUT Sample.IO_GPIO
          Sample.boot <> Ret (b, w')).
Proof.
  apply (C9_pad_not_validated 255 Sample.GPIOB 16%N Sample.MODE_OUTPUT
           Sample.IO_GPIO Sample.boot 1%nat Sample.table_b).
  - simpl. lia.
  - lia.
  - reflexivity.
  - simpl. lia.
Defined.

(** ** C10 *)

(** C10. A request whose tag has one bit inside the pin's [fn_available]
    and another outside it, and is not the pin's owner, is answered true,
    and the whole tag, the outside bit included, becomes the pin's
    owner. *)
Theorem C10_multi_bit_commit fuel pt pd m a w k t p :
  (length (io_manage_tables w) <= 255)%nat ->
  (255 <= fuel)%nat ->
  find_port (io_manage_tables w) pt = Some (k, t) ->
  pin t !! N.to_nat pd = Some p ->
  Z.land a (fn_available p) <> 0 ->
  Z.land a (Z.lnot (fn_available p)) <> 0 ->
  a <> current_alloc p ->
  exists w' t' p',
    io_manage_set_mode fuel pt pd m a w = Ret (true, w')
    /\ io_manage_tables w' !! k = Some t'
    /\ pin t' !! N.to_nat pd = Some p'
    /\ current_alloc p' = a
    /\ current_mode p' = m
    /\ fn_available p' = fn_available p
    /\ Z.land (current_alloc p') (Z.lnot (fn_available p')) <> 0.
Proof.
  intros Hlen Hfuel Hf Hp Hin Hout Hne. rewrite set_mode_spec by assumption.
  unfold set_mode_ref. rewrite Hf, Hp.
  assert (Hav : avail_test a p = true)
    by (apply avail_test_true; now right).
  rewrite Hav. apply list_find_Some in Hf as (Ht & _ & _).
  pose proof (lookup_lt_Some _ _ _ Ht). pose proof (lookup_lt_Some _ _ _ Hp).
  eexists _, _, _. split; [reflexivity|]. unfold commit. simpl.
  split; [now apply list_lookup_insert_eq|]. simpl.
  split; [now apply list_lookup_insert_eq|]. simpl. auto.
Qed.

Lemma C10_multi_bit_commit_witness :
  exists w' t' p',
    io_manage_set_mode 255 Sample.GPIOB 1%N Sample.MODE_OUTPUT
      (Z.lor Sample.IO_GPIO Sample.IO_SPI) Sample.boot = Ret (true, w')
    /\ io_manage_tables w' !! 1%nat = Some t'
    /\ pin t' !! N.to_nat 1%N = Some p'
    /\ current_alloc p' = Z.lor Sample.IO_GPIO Sample.IO_SPI
    /\ current_mode p' = Sample.MODE_OUTPUT
    /\ fn_available p' = Sample.IO_GPIO
    /\ Z.land (current_alloc p') (Z.lnot (fn_available p')) <> 0.
Proof.
  apply (C10_multi_bit_commit 255 Sample.GPIOB 1%N Sample.MODE_OUTPUT
           (Z.lor Sample.IO_GPIO Sample.IO_SPI) Sample.boot 1%nat Sample.table_b
           (Sample.fresh 1%N Sample.MODE_OUTPUT Sample.IO_GPIO Sample.IO_GPIO)).
  - simpl. lia.
  - lia.
  - reflexivity.
  - reflexivity.
  - vm_compute. discriminate.
  - vm_compute. discriminate.
  - vm_compute. discriminate.
Defined.

(** * Further properties of io_manage.c *)

(** ** What a commit changes *)

(** X1. A request that is answered true has changed the two current
    fields of one pin, the pin at index [pad] of the first table of the
    port, and nothing else in the registry; the HAL has been called
    once, with the port, the pad and the mode of the request. *)
Theorem X1_set_mode_frame fuel pt pd m a w w' :
  (length (io_manage_tables w) <= 255)%nat ->
  (255 <= fuel)%nat ->
  io_manage_set_mode fuel pt pd m a w = Ret (true, w') ->
  exists k t p t',
    find_port (io_manage_tables w) pt = Some (k, t)
    /\ pin t !! N.to_nat pd = Some p
    /\ length (io_manage_tables w') = length (io_manage_tables w)
    /\ (forall k', k' <> k -> io_manage_tables w' !! k' = io_manage_tables w !! k')
    /\ io_manage_tables w' !! k = Some t'
    /\ port t' = port t
    /\ length (pin t') = length (pin t)
    /\ (forall j, j <> N.to_nat pd -> pin t' !! j = pin t !! j)
    /\ pin t' !! N.to_nat pd
       = Some (mkPin (pad p) (default_mode p) (default_alloc p) (fn_available p) m a)
    /\ pal_trace w' = pal_trace w ++ [mkCall pt pd m].
Proof.
  intros Hlen Hfuel. rewrite set_mode_spec by assumption. unfold set_mode_ref.
  destruct (find_port (io_manage_tables w) pt) as [[k t]|] eqn:Hf; [|discriminate].
  destruct (pin t !! N.to_nat pd) as [p|] eqn:Hp; [|discriminate].
  destruct (avail_test a p); [|discriminate].
  intros [= <-]. apply list_find_Some in Hf as Hf'. destruct Hf' as (Ht & _ & _).
  pose proof (lookup_lt_Some _ _ _ Ht) as Hk.
  pose proof (lookup_lt_Some _ _ _ Hp) as Hj.
  exists k, t, p, (mkTable (port t) (<[N.to_nat pd := commit_pin m a p]> (pin t))).
  unfold commit. simpl.
  split; [reflexivity|]. split; [exact Hp|].
  split; [apply length_insert|].
  split; [intros k' Hne; now apply list_lookup_insert_ne|].
  split; [now apply list_lookup_insert_eq|].
  split; [reflexivity|].
  split; [apply length_insert|].
  split; [intros j Hne; now apply list_lookup_insert_ne|].
  split; [now apply list_lookup_insert_eq|reflexivity].
Qed.

Lemma X1_set_mode_frame_witness :
  exists k t p t',
    find_port (io_manage_tables Sample.boot) Sample.GPIOA = Some (k, t)
    /\ pin t !! N.to_nat 0%N = Some p
    /\ length (io_manage_tables Sample.after_adc) = length (io_manage_tables Sample.boot)
    /\ (forall k', k' <> k ->
          io_manage_tables Sample.after_adc !! k' = io_manage_tables Sample.boot !! k')
    /\ io_manage_tables Sample.after_adc !! k = Some t'
    /\ port t' = port t
    /\ length (pin t') = length (pin t)
    /\ (forall j, j <> N.to_nat 0%N -> pin t' !! j = pin t !! j)
    /\ pin t' !! N.to_nat 0%N
       = Some (mkPin (pad p) (default_mode p) (default_alloc p) (fn_available p)
                 Sample.MODE_ANALOG Sample.IO_ADC)
    /\ pal_trace Sample.after_adc
       = pal_trace Sample.boot ++ [mkCall Sample.GPIOA 0%N Sample.MODE_ANALOG].
Proof.
  apply (X1_set_mode_frame 255 Sample.GPIOA 0%N Sample.MODE_ANALOG Sample.IO_ADC
           Sample.boot Sample.after_adc).
  - simpl. lia.
  - lia.
  - vm_compute. reflexivity.
Defined.

(** ** The mode is not looked at *)

Lemma set_mode_answer fuel pt pd m a w :
  answer (io_manage_set_mode fuel pt pd m a w) =
    match io_manage_get_table fuel pt pd w with
    | Ret (Some k, _) =>
        match io_manage_tables w !! k with
        | Some t =>
            match pin t !! N.to_nat pd with
            | Some p => Ret (avail_test a p)
            | None => Fault
            end
        | None => Fault
        end
    | Ret (None, _) => Ret false
    | Fault => Fault
    | Timeout => Timeout
    end.
Proof.
  destruct (io_manage_get_table fuel pt pd w) as [[r w1]| |] eqn:Hg;
    try (unfold io_manage_set_mode, bind; now rewrite Hg).
  assert (w1 = w) by (eapply get_table_loop_pure; exact Hg). subst w1.
  destruct r as [k|].
  - destruct (get_table_loop_sound _ _ _ _ _ _ _ Hg) as (t & Ht & _). rewrite Ht.
    destruct (pin t !! N.to_nat pd) as [p|] eqn:Hp.
    + rewrite (set_mode_commit _ _ _ _ _ _ _ _ _ Hg Ht Hp).
      now destruct (avail_test a p).
    + unfold io_manage_set_mode. rewrite (bind_Ret _ _ _ _ _ Hg).
      unfold bind. now rewrite fn_avail_unfold, Ht, Hp.
  - unfold io_manage_set_mode. rewrite (bind_Ret _ _ _ _ _ Hg).
    unfold bind. now rewrite fn_avail_null.
Qed.

(** X2. The answer of [io_manage_set_mode] does not depend on the mode
    asked for: no mode is ever refused, and none is needed to be let
    in. *)
Theorem X2_set_mode_ignores_mode fuel pt pd m m' a w :
  answer (io_manage_set_mode fuel pt pd m a w)
  = answer (io_manage_set_mode fuel pt pd m' a w).
Proof.
  rewrite (set_mode_answer fuel pt pd m), (set_mode_answer fuel pt pd m').
  reflexivity.
Qed.

(** ** The empty tag *)

(** X3. The tag 0 has no bit in any mask: a request with it is answered
    true only for a pin whose owner is 0 already, and is refused, with
    the state unchanged, for every other pin. *)
Theorem X3_zero_tag fuel pt pd m w k t p :
  (length (io_manage_tables w) <= 255)%nat ->
  (255 <= fuel)%nat ->
  find_port (io_manage_tables w) pt = Some (k, t) ->
  pin t !! N.to_nat pd = Some p ->
  (current_alloc p = 0 ->
   exists w', io_manage_set_mode fuel pt pd m 0 w = Ret (true, w'))
  /\ (current_alloc p <> 0 ->
      io_manage_set_mode fuel pt pd m 0 w = Ret (false, w)).
Proof.
  intros Hlen Hfuel Hf Hp. rewrite set_mode_spec by assumption.
  unfold set_mode_ref. rewrite Hf, Hp. unfold avail_test.
  rewrite Z.land_0_l. simpl. rewrite orb_false_r. split; intros H.
  - rewrite (proj2 (Z.eqb_eq _ _) H). eauto.
  - now rewrite (proj2 (Z.eqb_neq _ _) H).
Qed.

Lemma X3_zero_tag_witness :
  (current_alloc Sample.pin_adc = 0 ->
   exists w',
     io_manage_set_mode 255 Sample.GPIOA 0%N Sample.MODE_INPUT 0 Sample.after_adc
     = Ret (true, w'))
  /\ (current_alloc Sample.pin_adc <> 0 ->
      io_manage_set_mode 255 Sample.GPIOA 0%N Sample.MODE_INPUT 0 Sample.after_adc
      = Ret (false, Sample.after_adc)).
Proof.
  apply (X3_zero_tag 255 Sample.GPIOA 0%N Sample.MODE_INPUT Sample.after_adc
           0%nat Sample.table_a_adc Sample.pin_adc).
  - simpl. lia.
  - lia.
  - reflexivity.
  - reflexivity.
Defined.

(** ** What no request changes *)

Lemma same_defaults_same_board w w' :
  map table_defaults (io_manage_tables w') = map table_defaults (io_manage_tables w) ->
  same_board w w'.
Proof.
  intros Heq. split.
  - rewrite <- (length_map table_defaults (io_manage_tables w')), Heq.
    apply length_map.
  - intros k t t' Ht Ht'.
    assert (Hk : table_defaults t' = table_defaults t).
    { apply (f_equal (fun l => l !! k)) in Heq.
      change (map table_defaults) with (fmap (M := list) table_defaults) in Heq.
      rewrite !list_lookup_fmap, Ht, Ht' in Heq. simpl in Heq. congruence. }
    unfold table_defaults in Hk. injection Hk as Hport Hpins.
    split; [exact Hport|]. split.
    + rewrite <- (length_map pin_defaults (pin t')), Hpins. apply length_map.
    + intros j p p' Hp Hp'.
      apply (f_equal (fun l => l !! j)) in Hpins.
      change (map pin_defaults) with (fmap (M := list) pin_defaults) in Hpins.
      rewrite !list_lookup_fmap, Hp, Hp' in Hpins. simpl in Hpins.
      unfold pin_defaults, set_current_alloc, set_current_mode in Hpins.
      simpl in Hpins. injection Hpins as H1 H2 H3 H4 _ _.
      repeat split; assumption.
Qed.

(** X4. Whatever requests are served, the registry keeps its shape and
    its capabilities: the number of tables, the port and the number of
    pins of every table, and the [pad], [default_mode], [default_alloc]
    and [fn_available] fields of every pin are those it started with. *)
Theorem X4_session_keeps_board fuel rs w w' :
  serve_all fuel rs w = Ret (tt, w') ->
  same_board w w'.
Proof.
  intros Hrun. apply same_defaults_same_board.
  now apply (serve_all_same_defaults fuel rs).
Qed.

Lemma X4_session_keeps_board_witness :
  same_board Sample.boot Sample.after_session.
Proof.
  apply (X4_session_keeps_board 255 Sample.session).
  vm_compute. reflexivity.
Defined.

(** ** The registry and the hardware *)

Lemma last_mode_app tr1 tr2 pt pd :
  last_mode (tr1 ++ tr2) pt pd =
    match last_mode tr2 pt pd with
    | Some m => Some m
    | None => last_mode tr1 pt pd
    end.
Proof.
  induction tr1 as [|c tr1 IH]; simpl.
  - now destruct (last_mode tr2 pt pd).
  - rewrite IH. now destruct (last_mode tr2 pt pd).
Qed.

Lemma last_mode_None tr pt pd :
  last_mode tr pt pd = None -> Forall (fun c => configures pt pd c = false) tr.
Proof.
  induction tr as [|c tr IH]; simpl; [constructor|].
  destruct (last_mode tr pt pd); [discriminate|].
  destruct (configures pt pd c) eqn:Hc; [discriminate|].
  intros _. constructor; auto.
Qed.

Lemma last_mode_Some tr pt pd m :
  last_mode tr pt pd = Some m ->
  Exists (fun c => configures pt pd c = true /\ call_mode c = m) tr.
Proof.
  induction tr as [|c tr IH]; simpl; [discriminate|].
  destruct (last_mode tr pt pd) as [m'|].
  - intros [= ->]. apply Exists_cons_tl. now apply IH.
  - destruct (configures pt pd c) eqn:Hc; [|discriminate].
    intros [= <-]. now apply Exists_cons_hd.
Qed.

(** When every call for the pad in a trace carries the same mode, and
    there is one, that mode is the last. *)
Lemma last_mode_same tr pt pd m :
  Exists (fun c => configures pt pd c = true) tr ->
  Forall (fun c => configures pt pd c = true -> call_mode c = m) tr ->
  last_mode tr pt pd = Some m.
Proof.
  intros Hex Hall. destruct (last_mode tr pt pd) as [m'|] eqn:Hl.
  - apply last_mode_Some, Exists_exists in Hl as (c & Hin & Hc & <-).
    f_equal. exact (proj1 (Forall_forall _ _) Hall c Hin Hc).
  - apply last_mode_None in Hl. apply Exists_exists in Hex as (c & Hin & Hc).
    rewrite (proj1 (Forall_forall _ _) Hl c Hin) in Hc. discriminate.
Qed.

Lemma board_port_unique w k k' t t' :
  board_ok w ->
  io_manage_tables w !! k = Some t ->
  io_manage_tables w !! k' = Some t' ->
  port t = port t' -> k = k'.
Proof.
  intros [Hnd _] Ht Ht' Heq.
  apply (NoDup_lookup _ _ _ (port t) Hnd);
    change (map port) with (fmap (M := list) port);
    rewrite list_lookup_fmap; [now rewrite Ht|now rewrite Ht', Heq].
Qed.

Lemma board_pad_index w k t j p :
  board_ok w ->
  io_manage_tables w !! k = Some t ->
  pin t !! j = Some p ->
  pad p = N.of_nat j.
Proof.
  intros [_ Hpads] Ht Hp.
  pose proof (proj1 (Forall_lookup _ _) Hpads k t Ht) as Hidx.
  unfold pads_indexed in Hidx.
  apply (f_equal (fun l => l !! j)) in Hidx.
  change (map pad) with (fmap (M := list) pad) in Hidx.
  change (map N.of_nat) with (fmap (M := list) N.of_nat) in Hidx.
  rewrite !list_lookup_fmap, Hp in Hidx.
  rewrite lookup_seq_lt in Hidx by (eapply lookup_lt_Some; exact Hp).
  simpl in Hidx. congruence.
Qed.

Lemma pads_indexed_defaults t : pads_indexed (table_defaults t) <-> pads_indexed t.
Proof.
  unfold pads_indexed, table_defaults. simpl. rewrite map_map, length_map.
  reflexivity.
Qed.

Lemma board_ok_same_defaults w w' :
  map table_defaults (io_manage_tables w') = map table_defaults (io_manage_tables w) ->
  board_ok w -> board_ok w'.
Proof.
  assert (Hports : forall l, map port l = map port (map table_defaults l))
    by (intros l; rewrite map_map; now apply map_ext).
  assert (Hpads : forall l, Forall pads_indexed l
                            <-> Forall pads_indexed (map table_defaults l)).
  { intros l. change (map table_defaults l) with (table_defaults <$> l).
    rewrite Forall_fmap. apply Forall_proper; [|reflexivity].
    intros t. simpl. symmetry. apply pads_indexed_defaults. }
  intros Heq [Hnd Hidx]. split.
  - now rewrite Hports, Heq, <- Hports.
  - now rewrite Hpads, Heq, <- Hpads.
Qed.

(** The calls of a reset: one for every pin, with the table's port, the
    pin's [pad] field and its default mode. *)
Lemma in_reset_calls tabs c :
  In c (flat_map reset_calls tabs) <->
  exists k t j p,
    tabs !! k = Some t /\ pin t !! j = Some p
    /\ c = mkCall (port t) (pad p) (default_mode p).
Proof.
  rewrite in_flat_map. unfold reset_calls. split.
  - intros (t & Hin & Hc). apply in_map_iff in Hc as (p & <- & Hp).
    apply list_elem_of_In, list_elem_of_lookup in Hin as [k Hk].
    apply list_elem_of_In, list_elem_of_lookup in Hp as [j Hj].
    now exists k, t, j, p.
  - intros (k & t & j & p & Ht & Hp & ->). exists t. split.
    + apply list_elem_of_In, list_elem_of_lookup. eauto.
    + apply in_map_iff. exists p. split; [reflexivity|].
      apply list_elem_of_In, list_elem_of_lookup. eauto.
Qed.

Lemma configures_true pt pd c :
  configures pt pd c = true <-> call_port c = pt /\ call_pad c = pd.
Proof.
  unfold configures. now rewrite andb_true_iff, Z.eqb_eq, N.eqb_eq.
Qed.

(** On a board where a port and a pad name one pin, a reset leaves the
    hardware and the registry at the defaults. *)
Lemma reset_world_hal w : board_ok w -> hal_at_defaults (reset_world w).
Proof.
  intros Hok k t' j p' Ht' Hp'. unfold reset_world in *. simpl in *.
  change (map table_defaults) with (fmap (M := list) table_defaults) in Ht'.
  rewrite list_lookup_fmap in Ht'.
  destruct (io_manage_tables w !! k) as [t|] eqn:Ht; [|discriminate].
  injection Ht' as <-. simpl in Hp'.
  change (map pin_defaults) with (fmap (M := list) pin_defaults) in Hp'.
  rewrite list_lookup_fmap in Hp'.
  destruct (pin t !! j) as [p|] eqn:Hp; [|discriminate].
  injection Hp' as <-. split; [|reflexivity]. simpl.
  rewrite last_mode_app.
  rewrite (last_mode_same _ (port t) (N.of_nat j) (default_mode p)); [reflexivity| |].
  - apply Exists_exists. exists (mkCall (port t) (pad p) (default_mode p)). split.
    + apply list_elem_of_In, in_reset_calls. now exists k, t, j, p.
    + apply configures_true. simpl. split; [reflexivity|].
      now apply (board_pad_index w k t).
  - apply Forall_forall. intros c Hin Hc.
    apply list_elem_of_In, in_reset_calls in Hin
      as (k0 & t0 & j0 & p0 & Ht0 & Hp0 & ->).
    apply configures_true in Hc as [Hport Hpad]. simpl in *.
    assert (k0 = k) by (now apply (board_port_unique w k0 k t0 t)). subst k0.
    assert (t0 = t) by congruence. subst t0.
    rewrite (board_pad_index w k t j0 p0 Hok Ht Hp0) in Hpad.
    apply Nat2N.inj in Hpad. subst j0. congruence.
Qed.

Lemma hal_at_defaults_agrees w : hal_at_defaults w -> hal_agrees w.
Proof.
  intros H k t j p m Ht Hp Hl. destruct (H k t j p Ht Hp) as [Hlast _]. congruence.
Qed.

(** A commit keeps the hardware and the registry in step. *)
Lemma commit_hal_agrees k t pd m a p w :
  board_ok w ->
  io_manage_tables w !! k = Some t ->
  pin t !! N.to_nat pd = Some p ->
  hal_agrees w -> hal_agrees (commit k t (port t) pd m a p w).
Proof.
  intros Hok Ht Hp Hag k' t' j p' m' Ht' Hp' Hl. unfold commit in *. simpl in *.
  pose proof (lookup_lt_Some _ _ _ Ht) as Hk.
  pose proof (lookup_lt_Some _ _ _ Hp) as Hj.
  rewrite last_mode_app in Hl. simpl in Hl.
  destruct (Nat.eq_dec k' k) as [->|Hne].
  - rewrite list_lookup_insert_eq in Ht' by exact Hk. injection Ht' as <-.
    simpl in *. destruct (Nat.eq_dec j (N.to_nat pd)) as [->|Hnj].
    + rewrite list_lookup_insert_eq in Hp' by exact Hj. injection Hp' as <-.
      unfold configures in Hl. simpl in Hl.
      rewrite N2Nat.id, Z.eqb_refl, N.eqb_refl in Hl. simpl in Hl. simpl. congruence.
    + rewrite list_lookup_insert_ne in Hp' by congruence.
      assert (Hc : configures (port t) (N.of_nat j) (mkCall (port t) pd m) = false).
      { unfold configures. simpl. apply andb_false_iff. right.
        apply N.eqb_neq. intros ->. apply Hnj. now rewrite Nat2N.id. }
      rewrite Hc in Hl.
      apply (Hag k t j p' m' Ht Hp').
      now destruct (last_mode (pal_trace w) (port t) (N.of_nat j)).
  - rewrite list_lookup_insert_ne in Ht' by congruence.
    assert (Hc : configures (port t') (N.of_nat j) (mkCall (port t) pd m) = false).
    { unfold configures. simpl. apply andb_false_iff. left.
      apply Z.eqb_neq. intros Heq. apply Hne.
      now apply (board_port_unique w k' k t' t). }
    rewrite Hc in Hl.
    apply (Hag k' t' j p' m' Ht' Hp').
    now destruct (last_mode (pal_trace w) (port t') (N.of_nat j)).
Qed.

Lemma serve_hal_agrees fuel r w w' :
  board_ok w -> hal_agrees w ->
  serve fuel r w = Ret (tt, w') ->
  hal_agrees w'.
Proof.
  intros Hok Hag. destruct r as [pt pd m a|]; simpl; intros H.
  - apply bind_inv in H as (b & w1 & Hs & Hr).
    unfold ret in Hr. injection Hr as ->.
    apply set_mode_inv in Hs as [[_ ->]|(_ & k & t & p & Ht & <- & Hp & _ & ->)];
      [exact Hag|now apply commit_hal_agrees].
  - apply to_defaults_ret in H as ->.
    now apply hal_at_defaults_agrees, reset_world_hal.
Qed.

(** X5. On a board where a port and a pad name one pin record, the
    registry stays in step with the hardware through every session:
    if, for every pad the HAL has been called for, its last call carried
    the mode recorded for the pin, then the same holds after any
    requests. *)
Theorem X5_registry_mirrors_hal fuel rs : forall w w',
  board_ok w -> hal_agrees w ->
  serve_all fuel rs w = Ret (tt, w') ->
  hal_agrees w'.
Proof.
  induction rs as [|r rs IH]; intros w w' Hok Hag; simpl.
  - unfold ret. now intros [= <-].
  - intros H. apply bind_inv in H as ([] & w1 & Hs & Hr).
    apply (IH w1 w'); [| |exact Hr].
    + apply (board_ok_same_defaults w); [|exact Hok].
      now apply (serve_same_defaults fuel r).
    + now apply (serve_hal_agrees fuel r w).
Qed.

Lemma sample_board_ok : board_ok Sample.boot.
Proof.
  split.
  - simpl. rewrite !NoDup_cons. repeat split.
    + intros H. apply list_elem_of_singleton in H. discriminate.
    + apply not_elem_of_nil.
    + apply NoDup_nil_2.
  - repeat constructor.
Qed.

Lemma X5_registry_mirrors_hal_witness : hal_agrees Sample.after_session.
Proof.
  apply (X5_registry_mirrors_hal 255 Sample.session Sample.boot).
  - exact sample_board_ok.
  - intros k t j p m _ _ Hl. discriminate Hl.
  - vm_compute. reflexivity.
Defined.

(** X6. On such a board, whose arrays the counters can count, a reset
    from any state returns with the hardware known: the HAL has been
    called for every pad of every table, last with the pin's default
    mode, which is the mode the registry records. *)
Theorem X6_reset_configures_every_pad fuel w :
  fits_u8 w = true ->
  (255 <= fuel)%nat ->
  board_ok w ->
  exists w', io_manage_to_defaults fuel w = Ret (tt, w') /\ hal_at_defaults w'.
Proof.
  intros Hfit Hfuel Hok. exists (reset_world w).
  split; [now apply to_defaults_run|now apply reset_world_hal].
Qed.

Lemma X6_reset_configures_every_pad_witness :
  exists w', io_manage_to_defaults 255 Sample.boot = Ret (tt, w') /\ hal_at_defaults w'.
Proof.
  apply (X6_reset_configures_every_pad 255 Sample.boot).
  - reflexivity.
  - lia.
  - exact sample_board_ok.
Defined.

(** ** Arrays the counters cannot count *)

Lemma get_table_loop_timeout pt pd w :
  (256 <= length (io_manage_tables w))%nat ->
  Forall (fun t => port t <> pt) (io_manage_tables w) ->
  forall fuel i, 0 <= i < 256 -> get_table_loop fuel i pt pd w = Timeout.
Proof.
  intros Hlen Hno. induction fuel as [|fuel IH]; intros i Hi;
    rewrite get_table_loop_unfold, (proj2 (Z.ltb_lt _ _)) by lia;
    [reflexivity|].
  destruct (lookup_lt_is_Some_2 (io_manage_tables w) (Z.to_nat i)) as [t Ht];
    [lia|].
  rewrite Ht.
  rewrite (proj2 (Z.eqb_neq _ _) (proj1 (Forall_lookup _ _) Hno _ t Ht)).
  apply IH. unfold u8_incr. apply Z.mod_pos_bound. lia.
Qed.

(** X7. With 256 tables or more and none for the requested port,
    [io_manage_set_mode] gives no answer, whatever the fuel: the
    [uint8_t] counter of the look-up wraps to 0 before it reaches the
    end of the array. *)
Theorem X7_unknown_port_never_answered fuel pt pd m a w :
  (256 <= length (io_manage_tables w))%nat ->
  Forall (fun t => port t <> pt) (io_manage_tables w) ->
  io_manage_set_mode fuel pt pd m a w = Timeout.
Proof.
  intros Hlen Hno. unfold io_manage_set_mode, io_manage_get_table, bind at 1.
  now rewrite (get_table_loop_timeout pt pd w Hlen Hno fuel 0).
Qed.

Lemma X7_unknown_port_never_answered_witness :
  io_manage_set_mode 1000 Sample.GPIOC 0%N Sample.MODE_INPUT Sample.IO_GPIO crowded
  = Timeout.
Proof.
  apply X7_unknown_port_never_answered.
  - change (io_manage_tables crowded) with (replicate 256 Sample.table_a).
    rewrite length_replicate. lia.
  - change (io_manage_tables crowded) with (replicate 256 Sample.table_a).
    apply Forall_replicate. discriminate.
Defined.

(** X8. With 256 tables or more, [io_manage_to_defaults] never returns,
    whatever the fuel. *)
Theorem X8_reset_never_returns fuel w r :
  (256 <= length (io_manage_tables w))%nat ->
  io_manage_to_defaults fuel w <> Ret r.
Proof.
  intros Hlen. unfold io_manage_to_defaults, bind at 1, nelems_tables.
  apply for_u8_diverges; lia.
Qed.

Lemma X8_reset_never_returns_witness :
  io_manage_to_defaults 1000 crowded <> Ret (tt, crowded).
Proof.
  apply X8_reset_never_returns.
  change (io_manage_tables crowded) with (replicate 256 Sample.table_a).
    rewrite length_replicate. lia.
Defined.

(** * Properties of the line reader of mshell.c *)

Lemma char_int_space sgn : char_int sgn ASCII_SPACE = 32.
Proof. now destruct sgn. Qed.

Lemma store_char_Some buf p c :
  (p < length buf)%nat -> store_char buf p c = Some (<[p := c]> buf).
Proof.
  intros H. unfold store_char. now rewrite (proj2 (Nat.ltb_lt _ _) H).
Qed.

Lemma store_char_None buf p c :
  (length buf <= p)%nat -> store_char buf p c = None.
Proof.
  intros H. unfold store_char. now rewrite (proj2 (Nat.ltb_ge _ _) H).
Qed.

Lemma take_S_insert (buf : list ascii) p c :
  (p < length buf)%nat -> take (S p) (<[p := c]> buf) = take p buf ++ [c].
Proof.
  intros H. rewrite (take_S_r _ p c) by now apply list_lookup_insert_eq.
  now rewrite take_insert_ge by lia.
Qed.

Lemma removelast_take_S (buf : list ascii) p :
  (p < length buf)%nat -> removelast (take (S p) buf) = take p buf.
Proof.
  intros H. destruct (lookup_lt_is_Some_2 buf p H) as [x Hx].
  rewrite (take_S_r _ p x Hx). apply removelast_last.
Qed.

Lemma c_string_app_nul (l r : list ascii) :
  Forall (fun c => c <> ASCII_NUL) l -> c_string (l ++ ASCII_NUL :: r) = l.
Proof.
  induction 1 as [|c l Hc _ IH]; simpl; [reflexivity|].
  rewrite (proj2 (Ascii.eqb_neq _ _) Hc). now rewrite IH.
Qed.

Lemma c_string_insert_nul (buf : list ascii) p :
  (p < length buf)%nat ->
  Forall (fun c => c <> ASCII_NUL) (take p buf) ->
  c_string (<[p := ASCII_NUL]> buf) = take p buf.
Proof.
  intros Hp Hnn. rewrite insert_take_drop by exact Hp.
  now apply c_string_app_nul.
Qed.

(** The loop computes what the editor computes, inside the memory it was
    given: with [1 <= size] and [size] bytes at [line] it never leaves
    the buffer, never writes at offset [size] or beyond, and the C string
    it leaves on FALSE is the edited text. *)
Lemma getline_loop_edit sgn echo size : forall input buf p out,
  1 <= size -> size <= Z.of_nat (length buf) ->
  Z.of_nat p <= size - 1 ->
  Forall (fun c => c <> ASCII_NUL) (take p buf) ->
  exists io,
    getline_loop sgn echo size input buf p out
      = Ret ((edit sgn size input (take p buf)).1.1, io)
    /\ li_input io = (edit sgn size input (take p buf)).2
    /\ length (li_buf io) = length buf
    /\ (forall i, size <= Z.of_nat i -> li_buf io !! i = buf !! i)
    /\ ((edit sgn size input (take p buf)).1.1 = false ->
        c_string (li_buf io) = (edit sgn size input (take p buf)).1.2).
Proof.
  induction input as [|c rest IH]; intros buf p out Hsz Hcap Hp Hnn; simpl.
  - eexists. split; [reflexivity|]. simpl. repeat split; try discriminate.
  - assert (Hlen : length (take p buf) = p) by (rewrite length_take; lia).
    destruct (Ascii.eqb c ASCII_EOT).
    { eexists. split; [reflexivity|]. simpl. repeat split; try discriminate. }
    destruct (Ascii.eqb c ASCII_CTL_U).
    { apply (IH buf 0%nat); try assumption; [lia|constructor]. }
    destruct (Ascii.eqb c ASCII_BACKSPACE || Ascii.eqb c ASCII_DELETE).
    { destruct p as [|p'].
      - apply (IH buf 0%nat); assumption.
      - rewrite removelast_take_S by lia.
        apply IH; try assumption; [lia|].
        destruct (lookup_lt_is_Some_2 buf p') as [x Hx]; [lia|].
        rewrite (take_S_r buf p' x Hx) in Hnn.
        now apply Forall_app in Hnn as [Hnn _]. }
    destruct (Ascii.eqb c ASCII_CR).
    { rewrite store_char_Some by lia. eexists. split; [reflexivity|]. simpl.
      split; [reflexivity|]. split; [apply length_insert|].
      split; [intros i Hi; apply list_lookup_insert_ne; lia|].
      intros _. apply c_string_insert_nul; [lia|exact Hnn]. }
    destruct (Ascii.eqb_spec c ASCII_NUL) as [Hnul|Hnul].
    { now apply IH. }
    rewrite char_int_space.
    destruct (char_int sgn c <? 32).
    { now apply IH. }
    rewrite Hlen.
    destruct (Z.ltb_spec (Z.of_nat p) (size - 1)) as [Hroom|Hfull].
    + rewrite store_char_Some by lia.
      rewrite <- (take_S_insert buf p c) by lia.
      destruct (IH (<[p := c]> buf) (S p)
                  (out ++ echoed echo [Stream_put c])) as (io & Hrun & Hin & Hl & Hfar & Hstr);
        try assumption.
      * rewrite length_insert. exact Hcap.
      * lia.
      * rewrite take_S_insert by lia. apply Forall_app. split; [exact Hnn|].
        now repeat constructor.
      * exists io. split; [exact Hrun|]. split; [exact Hin|].
        split; [now rewrite Hl, length_insert|]. split; [|exact Hstr].
        intros i Hi. rewrite (Hfar i Hi). apply list_lookup_insert_ne. lia.
    + now apply IH.
Qed.

Lemma storable_tests sgn c :
  storable sgn c = true ->
  Ascii.eqb c ASCII_EOT = false /\ Ascii.eqb c ASCII_CTL_U = false
  /\ Ascii.eqb c ASCII_BACKSPACE = false /\ Ascii.eqb c ASCII_DELETE = false
  /\ Ascii.eqb c ASCII_CR = false /\ Ascii.eqb c ASCII_NUL = false
  /\ (char_int sgn c <? 32) = false.
Proof.
  unfold storable. rewrite andb_true_iff, negb_true_iff, Z.leb_le.
  intros [Hge Hdel].
  assert (Hctl : forall x, char_int sgn x < 32 -> Ascii.eqb c x = false).
  { intros x Hx. apply Ascii.eqb_neq. intros ->. lia. }
  repeat split; try (apply Hctl; now destruct sgn); try exact Hdel.
  apply Z.ltb_ge. exact Hge.
Qed.

Lemma ends_line_false c :
  ends_line c = false ->
  Ascii.eqb c ASCII_CR = false /\ Ascii.eqb c ASCII_EOT = false.
Proof. unfold ends_line. now rewrite orb_false_iff. Qed.

Lemma storable_not_end sgn c : storable sgn c = true -> ends_line c = false.
Proof.
  intros H. apply storable_tests in H as (H1 & _ & _ & _ & H5 & _).
  unfold ends_line. now rewrite H1, H5.
Qed.

(** What the caller sees is what the editor computes. *)
Lemma line_read_edit sgn echo size input buf out :
  1 <= size -> size <= Z.of_nat (length buf) ->
  line_read (mshellGetLine sgn echo size (mkLineIO input buf out)) =
    Ret ((edit sgn size input []).1.1,
         (if (edit sgn size input []).1.1 then [] else (edit sgn size input []).1.2),
         (edit sgn size input []).2).
Proof.
  intros Hsz Hcap. unfold mshellGetLine. simpl.
  destruct (getline_loop_edit sgn echo size input buf 0%nat out)
    as (io & Hrun & Hin & _ & _ & Hstr); try assumption; [lia|constructor|].
  rewrite take_0 in *. rewrite Hrun. simpl. rewrite Hin.
  destruct (edit sgn size input []) as [[b l] r]. simpl in *.
  destruct b; [reflexivity|]. now rewrite Hstr.
Qed.

(** ** The editor *)

Lemma edit_kill sgn size post : forall pre acc,
  Forall (fun c => ends_line c = false) pre ->
  edit sgn size (pre ++ ASCII_CTL_U :: post) acc = edit sgn size post [].
Proof.
  induction pre as [|c pre IH]; intros acc Hne; simpl; [reflexivity|].
  apply Forall_cons in Hne as [Hc Hne].
  destruct (ends_line_false c Hc) as [-> ->].
  destruct (Ascii.eqb c ASCII_CTL_U); [now apply IH|].
  destruct (Ascii.eqb c ASCII_BACKSPACE || Ascii.eqb c ASCII_DELETE); [now apply IH|].
  destruct (Ascii.eqb c ASCII_NUL); [now apply IH|].
  destruct (char_int sgn c <? 32); [now apply IH|].
  destruct (Z.of_nat (length acc) <? size - 1); now apply IH.
Qed.

Lemma edit_first_end sgn size : forall pre acc,
  Forall (fun c => ends_line c = false) pre ->
  (forall rest,
     (edit sgn size (pre ++ ASCII_CR :: rest) acc).1.1 = false
     /\ (edit sgn size (pre ++ ASCII_CR :: rest) acc).2 = rest)
  /\ (forall rest,
        (edit sgn size (pre ++ ASCII_EOT :: rest) acc).1.1 = true
        /\ (edit sgn size (pre ++ ASCII_EOT :: rest) acc).2 = rest)
  /\ (edit sgn size pre acc).1.1 = true
  /\ (edit sgn size pre acc).2 = [].
Proof.
  induction pre as [|c pre IH]; intros acc Hne; simpl; [now auto|].
  apply Forall_cons in Hne as [Hc Hne].
  destruct (ends_line_false c Hc) as [-> ->].
  destruct (Ascii.eqb c ASCII_CTL_U); [now apply IH|].
  destruct (Ascii.eqb c ASCII_BACKSPACE || Ascii.eqb c ASCII_DELETE); [now apply IH|].
  destruct (Ascii.eqb c ASCII_NUL); [now apply IH|].
  destruct (char_int sgn c <? 32); [now apply IH|].
  destruct (Z.of_nat (length acc) <? size - 1); now apply IH.
Qed.

Lemma Forall_removelast {A} (P : A -> Prop) (l : list A) :
  Forall P l -> Forall P (removelast l).
Proof.
  induction 1 as [|x l Hx Hl IH]; simpl; [constructor|].
  destruct l; [constructor|]. now constructor.
Qed.

Lemma length_removelast_le {A} (l : list A) :
  (length (removelast l) <= length l)%nat.
Proof.
  induction l as [|x l IH]; simpl; [lia|]. destruct l; simpl in *; lia.
Qed.

Lemma edit_line_clean sgn size : forall input acc,
  Forall (fun c => storable sgn c = true) acc ->
  Z.of_nat (length acc) <= size - 1 ->
  Forall (fun c => storable sgn c = true) (edit sgn size input acc).1.2
  /\ Z.of_nat (length (edit sgn size input acc).1.2) <= size - 1.
Proof.
  induction input as [|c rest IH]; intros acc Hst Hlen; simpl; [now auto|].
  destruct (Ascii.eqb c ASCII_EOT); [now auto|].
  destruct (Ascii.eqb c ASCII_CTL_U).
  { destruct (Z_le_gt_dec 0 (size - 1)) as [Hs|Hs].
    - apply IH; [constructor|simpl; lia].
    - lia. }
  destruct (Ascii.eqb c ASCII_BACKSPACE || Ascii.eqb c ASCII_DELETE) eqn:Hbs.
  { apply IH; [now apply Forall_removelast|].
    pose proof (length_removelast_le acc). lia. }
  destruct (Ascii.eqb c ASCII_CR); [now auto|].
  destruct (Ascii.eqb c ASCII_NUL); [now apply IH|].
  destruct (Z.ltb_spec (char_int sgn c) 32) as [Hlow|Hhigh]; [now apply IH|].
  destruct (Z.ltb_spec (Z.of_nat (length acc)) (size - 1)) as [Hroom|Hfull];
    [|now apply IH].
  apply IH.
  - apply Forall_app. split; [exact Hst|]. repeat constructor.
    unfold storable. apply orb_false_iff in Hbs as [_ ->].
    now rewrite (proj2 (Z.leb_le _ _) Hhigh).
  - rewrite length_app. simpl. lia.
Qed.

(** ** The properties *)

(** X9. Given a buffer of at least [size] bytes and [size >= 1],
    [mshellGetLine] returns for every input, the buffer keeps its
    length, and no byte at offset [size] or beyond is written. *)
Theorem X9_getline_stays_in_buffer sgn echo size input buf out :
  1 <= size -> size <= Z.of_nat (length buf) ->
  exists b io,
    mshellGetLine sgn echo size (mkLineIO input buf out) = Ret (b, io)
    /\ length (li_buf io) = length buf
    /\ (forall i, size <= Z.of_nat i -> li_buf io !! i = buf !! i).
Proof.
  intros Hsz Hcap. unfold mshellGetLine. simpl.
  destruct (getline_loop_edit sgn echo size input buf 0%nat out)
    as (io & Hrun & _ & Hl & Hfar & _); try assumption; [lia|constructor|].
  eauto.
Qed.

(** X10. The line that [mshellGetLine] hands over with FALSE has at most
    [size - 1] characters, and each of them is a character that is not a
    control character nor DEL. *)
Theorem X10_getline_line_clean sgn echo size input buf out io :
  1 <= size -> size <= Z.of_nat (length buf) ->
  mshellGetLine sgn echo size (mkLineIO input buf out) = Ret (false, io) ->
  Z.of_nat (length (c_string (li_buf io))) <= size - 1
  /\ Forall (fun c => storable sgn c = true) (c_string (li_buf io)).
Proof.
  intros Hsz Hcap Hrun. unfold mshellGetLine in Hrun. simpl in Hrun.
  destruct (getline_loop_edit sgn echo size input buf 0%nat out)
    as (io' & Hrun' & _ & _ & _ & Hstr); try assumption; [lia|constructor|].
  rewrite take_0 in *. rewrite Hrun in Hrun'. injection Hrun' as Hb <-.
  rewrite (Hstr (eq_sym Hb)).
  destruct (edit_line_clean sgn size input []) as [Hclean Hlen];
    [constructor|simpl; lia|]. auto.
Qed.

Lemma X9_getline_stays_in_buffer_witness :
  exists b io,
    mshellGetLine false true 8 (mkLineIO Typed.help_line Typed.memory []) = Ret (b, io)
    /\ length (li_buf io) = length Typed.memory
    /\ (forall i, 8 <= Z.of_nat i -> li_buf io !! i = Typed.memory !! i).
Proof.
  apply (X9_getline_stays_in_buffer false true 8 Typed.help_line Typed.memory []).
  - lia.
  - simpl. lia.
Defined.

Lemma X10_getline_line_clean_witness :
  Z.of_nat (length (Typed.text "help")) <= 8 - 1
  /\ Forall (fun c => storable false c = true) (Typed.text "help").
Proof.
  apply (X10_getline_line_clean false true 8 Typed.help_line Typed.memory []
           (mkLineIO (Typed.text "more")
              (Typed.text "help" ++ [ASCII_NUL] ++ replicate 3 "?"%char)
              (map Stream_put (Typed.text "help") ++ [Chprintf CRLF]))).
  - lia.
  - simpl. lia.
  - vm_compute. reflexivity.
Defined.

Lemma echoed_app echo a b : echoed echo (a ++ b) = echoed echo a ++ echoed echo b.
Proof. now destruct echo. Qed.

Lemma getline_loop_CR sgn echo size rest buf p out :
  getline_loop sgn echo size (ASCII_CR :: rest) buf p out =
    match store_char buf p ASCII_NUL with
    | Some buf' => Ret (false, mkLineIO rest buf' (out ++ echoed echo [Chprintf CRLF]))
    | None => Fault
    end.
Proof. reflexivity. Qed.

Lemma getline_loop_storable sgn echo size c rest buf p out :
  storable sgn c = true ->
  getline_loop sgn echo size (c :: rest) buf p out =
    if Z.of_nat p <? size - 1 then
      match store_char buf p c with
      | Some buf' =>
          getline_loop sgn echo size rest buf' (S p) (out ++ echoed echo [Stream_put c])
      | None => Fault
      end
    else getline_loop sgn echo size rest buf p out.
Proof.
  intros Hc. simpl.
  destruct (storable_tests sgn c Hc) as (-> & -> & -> & -> & -> & -> & Hlow).
  simpl. now rewrite char_int_space, Hlow.
Qed.

Lemma getline_loop_text sgn echo size rest : forall s buf p out,
  1 <= size -> size <= Z.of_nat (length buf) ->
  Z.of_nat p <= size - 1 ->
  Forall (fun c => c <> ASCII_NUL) (take p buf) ->
  Forall (fun c => storable sgn c = true) s ->
  exists buf',
    getline_loop sgn echo size (s ++ ASCII_CR :: rest) buf p out
    = Ret (false,
           mkLineIO rest buf'
             (out ++ echoed echo
                       (map Stream_put (take (Z.to_nat (size - 1) - p) s)
                        ++ [Chprintf CRLF])))
    /\ c_string buf' = take p buf ++ take (Z.to_nat (size - 1) - p) s.
Proof.
  induction s as [|c s IH]; intros buf p out Hsz Hcap Hp Hnn Hst.
  - simpl app. rewrite getline_loop_CR, store_char_Some by lia.
    eexists. split.
    + rewrite take_nil. reflexivity.
    + rewrite take_nil, app_nil_r. apply c_string_insert_nul; [lia|exact Hnn].
  - apply Forall_cons in Hst as [Hc Hst].
    change ((c :: s) ++ ASCII_CR :: rest) with (c :: (s ++ ASCII_CR :: rest)).
    rewrite (getline_loop_storable _ _ _ _ _ _ _ _ Hc).
    destruct (Z.ltb_spec (Z.of_nat p) (size - 1)) as [Hroom|Hfull].
    + rewrite store_char_Some by lia.
      destruct (IH (<[p := c]> buf) (S p) (out ++ echoed echo [Stream_put c]))
        as (buf' & Hrun & Hstr); try assumption.
      * rewrite length_insert. exact Hcap.
      * lia.
      * rewrite take_S_insert by lia. apply Forall_app. split; [exact Hnn|].
        repeat constructor.
        apply storable_tests in Hc as (_ & _ & _ & _ & _ & Hnul & _).
        now apply Ascii.eqb_neq.
      * exists buf'.
        replace (Z.to_nat (size - 1) - p)%nat
          with (S (Z.to_nat (size - 1) - S p)) by lia.
        simpl take. split.
        -- rewrite Hrun. simpl map. rewrite <- app_assoc, <- echoed_app.
           reflexivity.
        -- rewrite Hstr, take_S_insert by lia. now rewrite <- app_assoc.
    + destruct (IH buf p out) as (buf' & Hrun & Hstr); try assumption.
      exists buf'.
      replace (Z.to_nat (size - 1) - p)%nat with 0%nat in * by lia.
      now rewrite take_0 in *.
Qed.

(** X11. Text without control characters followed by a carriage return
    comes back as the line, cut to its first [size - 1] characters; the
    characters that are kept, and only those, are echoed, followed by
    ["\r\n"], when the echo is on; what follows the carriage return
    stays on the channel. *)
Theorem X11_getline_typed_text sgn echo size s rest buf out :
  1 <= size -> size <= Z.of_nat (length buf) ->
  Forall (fun c => storable sgn c = true) s ->
  exists buf',
    mshellGetLine sgn echo size (mkLineIO (s ++ ASCII_CR :: rest) buf out)
    = Ret (false,
           mkLineIO rest buf'
             (out ++ echoed echo
                       (map Stream_put (take (Z.to_nat (size - 1)) s)
                        ++ [Chprintf CRLF])))
    /\ c_string buf' = take (Z.to_nat (size - 1)) s.
Proof.
  intros Hsz Hcap Hst. unfold mshellGetLine. simpl.
  destruct (getline_loop_text sgn echo size rest s buf 0%nat out)
    as (buf' & Hrun & Hstr); try assumption; [lia|constructor|].
  rewrite Nat.sub_0_r in *. rewrite take_0 in Hstr. eauto.
Qed.

Lemma X11_getline_typed_text_witness :
  exists buf',
    mshellGetLine false true 4
      (mkLineIO (Typed.text "help" ++ ASCII_CR :: Typed.text "more") Typed.memory [])
    = Ret (false,
           mkLineIO (Typed.text "more") buf'
             ([] ++ echoed true
                      (map Stream_put (take (Z.to_nat (4 - 1)) (Typed.text "help"))
                       ++ [Chprintf CRLF])))
    /\ c_string buf' = take (Z.to_nat (4 - 1)) (Typed.text "help").
Proof.
  apply (X11_getline_typed_text false true 4 (Typed.text "help")).
  - lia.
  - simpl. lia.
  - repeat constructor.
Defined.

(** Text without control characters goes to the end of the line typed so
    far, as far as there is room. *)
Lemma edit_app_text sgn size post : forall s acc,
  Forall (fun c => storable sgn c = true) s ->
  edit sgn size (s ++ post) acc
  = edit sgn size post (acc ++ take (Z.to_nat (size - 1) - length acc) s).
Proof.
  induction s as [|c s IH]; intros acc Hst; simpl.
  - now rewrite take_nil, app_nil_r.
  - apply Forall_cons in Hst as [Hc Hst].
    destruct (storable_tests sgn c Hc) as (-> & -> & -> & -> & -> & -> & ->).
    simpl. destruct (Z.ltb_spec (Z.of_nat (length acc)) (size - 1)) as [Hroom|Hfull].
    + rewrite IH by exact Hst. rewrite length_app. simpl.
      replace (Z.to_nat (size - 1) - length acc)%nat
        with (S (Z.to_nat (size - 1) - (length acc + 1))) by lia.
      simpl. now rewrite <- app_assoc.
    + rewrite IH by exact Hst.
      replace (Z.to_nat (size - 1) - length acc)%nat with 0%nat by lia.
      reflexivity.
Qed.

Lemma edit_erase sgn size bs post acc :
  bs = ASCII_BACKSPACE \/ bs = ASCII_DELETE ->
  edit sgn size (bs :: post) acc = edit sgn size post (removelast acc).
Proof. intros [-> | ->]; reflexivity. Qed.

(** Input without an end of line is typed text: what follows it is
    edited from the line that the text has left. *)
Lemma edit_app_prefix sgn size post : forall pre acc,
  Forall (fun c => ends_line c = false) pre ->
  edit sgn size (pre ++ post) acc = edit sgn size post (edit sgn size pre acc).1.2.
Proof.
  induction pre as [|c pre IH]; intros acc Hne; simpl; [reflexivity|].
  apply Forall_cons in Hne as [Hc Hne].
  destruct (ends_line_false c Hc) as [-> ->].
  destruct (Ascii.eqb c ASCII_CTL_U); [now apply IH|].
  destruct (Ascii.eqb c ASCII_BACKSPACE || Ascii.eqb c ASCII_DELETE); [now apply IH|].
  destruct (Ascii.eqb c ASCII_NUL); [now apply IH|].
  destruct (char_int sgn c <? 32); [now apply IH|].
  destruct (Z.of_nat (length acc) <? size - 1); now apply IH.
Qed.

(** X12. A character typed where there is room for it and erased at once
    with backspace or DEL leaves no trace in what the caller gets,
    whatever was typed on the line before it, erasures, CTRL-U and
    ignored bytes included: the flag, the line and the rest of the
    channel are as if the two bytes had not been sent.  There is room
    when the line so far, the one a carriage return at that point hands
    over, has fewer than [size - 1] characters. *)
Theorem X12_getline_backspace sgn echo size pre l c bs post buf out :
  1 <= size -> size <= Z.of_nat (length buf) ->
  Forall (fun x => ends_line x = false) pre ->
  line_read (mshellGetLine sgn echo size (mkLineIO (pre ++ [ASCII_CR]) buf out))
  = Ret (false, l, []) ->
  Z.of_nat (length l) < size - 1 ->
  storable sgn c = true ->
  bs = ASCII_BACKSPACE \/ bs = ASCII_DELETE ->
  line_read (mshellGetLine sgn echo size (mkLineIO (pre ++ c :: bs :: post) buf out))
  = line_read (mshellGetLine sgn echo size (mkLineIO (pre ++ post) buf out)).
Proof.
  intros Hsz Hcap Hpre Hline Hroom Hc Hbs.
  rewrite line_read_edit in Hline by assumption.
  rewrite (edit_app_prefix sgn size [ASCII_CR] pre [] Hpre) in Hline.
  change (edit sgn size [ASCII_CR] (edit sgn size pre []).1.2)
    with (false, (edit sgn size pre []).1.2, @nil ascii) in Hline.
  simpl in Hline. injection Hline as Hl. 
  rewrite !line_read_edit by assumption.
  assert (Heq : edit sgn size (pre ++ c :: bs :: post) []
                = edit sgn size (pre ++ post) []).
  { rewrite !(edit_app_prefix sgn size _ pre [] Hpre), Hl.
    change (c :: bs :: post) with ([c] ++ bs :: post).
    rewrite edit_app_text by (repeat constructor; exact Hc).
    replace (Z.to_nat (size - 1) - length l)%nat
      with (S (Z.to_nat (size - 1) - length l - 1)) by lia.
    simpl take. rewrite take_nil.
    rewrite (edit_erase _ _ _ _ _ Hbs). now rewrite removelast_last. }
  now rewrite Heq.
Qed.

(** "fetch", CTRL-U, "ad", then "x" and a backspace, then "c" and a
    carriage return: the line so far is "ad". *)
Lemma X12_getline_backspace_witness :
  line_read (mshellGetLine false true 8
               (mkLineIO ((Typed.text "fetch" ++ ASCII_CTL_U :: Typed.text "ad")
                          ++ "x"%char :: ASCII_BACKSPACE
                          :: Typed.text "c" ++ [ASCII_CR])
                  Typed.memory []))
  = line_read (mshellGetLine false true 8
                 (mkLineIO ((Typed.text "fetch" ++ ASCII_CTL_U :: Typed.text "ad")
                            ++ Typed.text "c" ++ [ASCII_CR])
                    Typed.memory [])).
Proof.
  apply (X12_getline_backspace false true 8
           (Typed.text "fetch" ++ ASCII_CTL_U :: Typed.text "ad") (Typed.text "ad")
           "x"%char ASCII_BACKSPACE).
  - lia.
  - simpl. lia.
  - repeat constructor.
  - vm_compute. reflexivity.
  - simpl. lia.
  - reflexivity.
  - now left.
Defined.

(** X13. CTRL-U discards the line typed so far: whatever was sent before
    it since the last end of line, the caller gets what it would get had
    the input begun after the CTRL-U. *)
Theorem X13_getline_kill_line sgn echo size pre post buf out :
  1 <= size -> size <= Z.of_nat (length buf) ->
  Forall (fun c => ends_line c = false) pre ->
  line_read (mshellGetLine sgn echo size
               (mkLineIO (pre ++ ASCII_CTL_U :: post) buf out))
  = line_read (mshellGetLine sgn echo size (mkLineIO post buf out)).
Proof.
  intros Hsz Hcap Hpre. rewrite !line_read_edit by assumption.
  now rewrite (edit_kill sgn size post pre [] Hpre).
Qed.

Lemma X13_getline_kill_line_witness :
  line_read (mshellGetLine false true 8
               (mkLineIO (Typed.text "fetch" ++ ASCII_CTL_U
                            :: Typed.text "gpio" ++ [ASCII_CR])
                  Typed.memory []))
  = line_read (mshellGetLine false true 8
                 (mkLineIO (Typed.text "gpio" ++ [ASCII_CR]) Typed.memory [])).
Proof.
  apply (X13_getline_kill_line false true 8 (Typed.text "fetch")).
  - lia.
  - simpl. lia.
  - repeat constructor.
Defined.

(** X14. [mshellGetLine] reads up to the first carriage return or EOT
    and no further: it returns FALSE at a carriage return and TRUE at an
    EOT, leaving what follows on the channel, and TRUE when the channel
    is reset before either. *)
Theorem X14_getline_one_line sgn echo size pre rest buf out :
  1 <= size -> size <= Z.of_nat (length buf) ->
  Forall (fun c => ends_line c = false) pre ->
  (exists io,
     mshellGetLine sgn echo size (mkLineIO (pre ++ ASCII_CR :: rest) buf out)
     = Ret (false, io) /\ li_input io = rest)
  /\ (exists io,
        mshellGetLine sgn echo size (mkLineIO (pre ++ ASCII_EOT :: rest) buf out)
        = Ret (true, io) /\ li_input io = rest)
  /\ (exists io,
        mshellGetLine sgn echo size (mkLineIO pre buf out) = Ret (true, io)
        /\ li_input io = []).
Proof.
  intros Hsz Hcap Hpre. unfold mshellGetLine. simpl.
  destruct (edit_first_end sgn size pre [] Hpre) as (Hcr & Heot & Hend1 & Hend2).
  destruct (Hcr rest) as [Hcr1 Hcr2]. destruct (Heot rest) as [Heot1 Heot2].
  split; [|split].
  - destruct (getline_loop_edit sgn echo size (pre ++ ASCII_CR :: rest) buf 0%nat out)
      as (io & Hrun & Hin & _); try assumption; [lia|constructor|].
    rewrite take_0, Hcr1 in Hrun. rewrite take_0, Hcr2 in Hin. eauto.
  - destruct (getline_loop_edit sgn echo size (pre ++ ASCII_EOT :: rest) buf 0%nat out)
      as (io & Hrun & Hin & _); try assumption; [lia|constructor|].
    rewrite take_0, Heot1 in Hrun. rewrite take_0, Heot2 in Hin. eauto.
  - destruct (getline_loop_edit sgn echo size pre buf 0%nat out)
      as (io & Hrun & Hin & _); try assumption; [lia|constructor|].
    rewrite take_0, Hend1 in Hrun. rewrite take_0, Hend2 in Hin. eauto.
Qed.

Lemma X14_getline_one_line_witness :
  (exists io,
     mshellGetLine false true 8
       (mkLineIO (Typed.text "help" ++ ASCII_CR :: Typed.text "more") Typed.memory [])
     = Ret (false, io) /\ li_input io = Typed.text "more")
  /\ (exists io,
        mshellGetLine false true 8
          (mkLineIO (Typed.text "help" ++ ASCII_EOT :: Typed.text "more") Typed.memory [])
        = Ret (true, io) /\ li_input io = Typed.text "more")
  /\ (exists io,
        mshellGetLine false true 8 (mkLineIO (Typed.text "help") Typed.memory [])
        = Ret (true, io) /\ li_input io = []).
Proof.
  apply (X14_getline_one_line false true 8 (Typed.text "help")).
  - lia.
  - simpl. lia.
  - repeat constructor.
Defined.

Lemma kill_line_silent p out : kill_line false p out = out.
Proof.
  revert out. induction p as [|p IH]; intros out; simpl; [reflexivity|].
  now rewrite app_nil_r.
Qed.

Lemma getline_loop_silent sgn size : forall input buf p out b io,
  getline_loop sgn false size input buf p out = Ret (b, io) -> li_out io = out.
Proof.
  induction input as [|c rest IH]; intros buf p out b io; simpl.
  - now intros [= _ <-].
  - destruct (Ascii.eqb c ASCII_EOT).
    { intros [= _ <-]. simpl. apply app_nil_r. }
    destruct (Ascii.eqb c ASCII_CTL_U).
    { rewrite kill_line_silent. apply IH. }
    destruct (Ascii.eqb c ASCII_BACKSPACE || Ascii.eqb c ASCII_DELETE).
    { destruct p; [apply IH|]. rewrite app_nil_r. apply IH. }
    destruct (Ascii.eqb c ASCII_CR).
    { destruct (store_char buf p ASCII_NUL); [|discriminate].
      intros [= _ <-]. simpl. apply app_nil_r. }
    destruct (Ascii.eqb c ASCII_NUL); [apply IH|].
    destruct (char_int sgn c <? char_int sgn ASCII_SPACE); [apply IH|].
    destruct (Z.of_nat p <? size - 1); [|apply IH].
    destruct (store_char buf p c); [|discriminate].
    rewrite app_nil_r. apply IH.
Qed.

(** X15. With [mshell_echo_chars] false, [mshellGetLine] writes nothing
    to the channel, whatever it reads. *)
Theorem X15_getline_silent sgn size io b io' :
  mshellGetLine sgn false size io = Ret (b, io') ->
  li_out io' = li_out io.
Proof.
  unfold mshellGetLine. intros Hrun.
  exact (getline_loop_silent sgn size _ _ _ _ _ _ Hrun).
Qed.

Lemma X15_getline_silent_witness :
  li_out (mkLineIO [] (Typed.text "gpio" ++ [ASCII_NUL] ++ replicate 3 "?"%char) [])
  = li_out (mkLineIO Typed.retyped Typed.memory []).
Proof.
  apply (X15_getline_silent false 8 (mkLineIO Typed.retyped Typed.memory []) false).
  vm_compute. reflexivity.
Defined.

Lemma getline_loop_no_room sgn echo size rest : forall pre buf out,
  size <= 1 ->
  Forall (fun c => ends_line c = false) pre ->
  getline_loop sgn echo size (pre ++ ASCII_CR :: rest) buf 0 out
  = getline_loop sgn echo size (ASCII_CR :: rest) buf 0 out.
Proof.
  induction pre as [|c pre IH]; intros buf out Hsz Hpre; [reflexivity|].
  apply Forall_cons in Hpre as [Hc Hpre].
  destruct (ends_line_false c Hc) as [Hcr Heot].
  simpl app. cbn [getline_loop]. rewrite Heot, Hcr.
  destruct (Ascii.eqb c ASCII_CTL_U); [now apply IH|].
  destruct (Ascii.eqb c ASCII_BACKSPACE || Ascii.eqb c ASCII_DELETE); [now apply IH|].
  destruct (Ascii.eqb c ASCII_NUL); [now apply IH|].
  destruct (char_int sgn c <? char_int sgn ASCII_SPACE); [now apply IH|].
  rewrite (proj2 (Z.ltb_ge _ _)) by (simpl; lia). now apply IH.
Qed.

(** X16. The terminating NUL is written without a look at [size]: with
    [size = 0] the line that ends in a carriage return still puts a NUL
    at [line[0]], one byte more than the caller said there is, and
    leaves the buffer when there is no such byte. *)
Theorem X16_getline_size_zero sgn echo pre rest buf out :
  Forall (fun c => ends_line c = false) pre ->
  mshellGetLine sgn echo 0 (mkLineIO (pre ++ ASCII_CR :: rest) buf out)
  = match buf with
    | [] => Fault
    | _ :: buf' =>
        Ret (false,
             mkLineIO rest (ASCII_NUL :: buf') (out ++ echoed echo [Chprintf CRLF]))
    end.
Proof.
  intros Hpre. unfold mshellGetLine. simpl.
  rewrite getline_loop_no_room by (try lia; exact Hpre).
  rewrite getline_loop_CR. now destruct buf.
Qed.

Lemma X16_getline_size_zero_witness :
  mshellGetLine false true 0 (mkLineIO (Typed.text "help" ++ ASCII_CR :: []) [] [])
  = Fault.
Proof.
  apply (X16_getline_size_zero false true (Typed.text "help") [] [] []).
  repeat constructor.
Defined.

(** X17. Once the line is full a further character is dropped, but a
    backspace after it is not: it erases the last character that was
    kept. *)
Theorem X17_getline_backspace_when_full sgn echo size pre c bs rest buf out :
  2 <= size -> size <= Z.of_nat (length buf) ->
  Forall (fun x => storable sgn x = true) pre ->
  storable sgn c = true ->
  size - 1 <= Z.of_nat (length pre) ->
  bs = ASCII_BACKSPACE \/ bs = ASCII_DELETE ->
  line_read (mshellGetLine sgn echo size
               (mkLineIO (pre ++ c :: bs :: ASCII_CR :: rest) buf out))
  = Ret (false, take (Z.to_nat (size - 2)) pre, rest).
Proof.
  intros Hsz Hcap Hpre Hc Hfull Hbs. rewrite line_read_edit by (try lia; assumption).
  assert (Heq : edit sgn size (pre ++ c :: bs :: ASCII_CR :: rest) []
                = (false, take (Z.to_nat (size - 2)) pre, rest)).
  { rewrite edit_app_text by exact Hpre. simpl length. rewrite Nat.sub_0_r.
    simpl app. change (c :: bs :: ASCII_CR :: rest) with ([c] ++ bs :: ASCII_CR :: rest).
    rewrite edit_app_text by (repeat constructor; exact Hc).
    rewrite length_take.
    replace (Z.to_nat (size - 1) - Z.to_nat (size - 1) `min` length pre)%nat
      with 0%nat by lia.
    rewrite take_0, app_nil_r, (edit_erase _ _ _ _ _ Hbs).
    destruct (lookup_lt_is_Some_2 pre (Z.to_nat (size - 2))) as [x Hx]; [lia|].
    replace (Z.to_nat (size - 1)) with (S (Z.to_nat (size - 2))) by lia.
    rewrite (take_S_r pre _ x Hx), removelast_last. reflexivity. }
  now rewrite Heq.
Qed.

Lemma X17_getline_backspace_when_full_witness :
  line_read (mshellGetLine false true 4
               (mkLineIO (Typed.text "help" ++ "!"%char :: ASCII_DELETE
                            :: ASCII_CR :: Typed.text "more")
                  Typed.memory []))
  = Ret (false, take (Z.to_nat (4 - 2)) (Typed.text "help"), Typed.text "more").
Proof.
  apply (X17_getline_backspace_when_full false true 4 (Typed.text "help") "!"%char
           ASCII_DELETE).
  - lia.
  - simpl. lia.
  - repeat constructor.
  - reflexivity.
  - simpl. lia.
  - now right.
Defined.

Lemma char_int_7bit c :
  (N_of_ascii c < 128)%N -> char_int true c = char_int false c.
Proof.
  intros H. unfold char_int. simpl.
  now rewrite (proj2 (Z.leb_gt _ _)) by lia.
Qed.

Lemma getline_loop_7bit echo size : forall input buf p out,
  Forall (fun c => (N_of_ascii c < 128)%N) input ->
  getline_loop true echo size input buf p out
  = getline_loop false echo size input buf p out.
Proof.
  induction input as [|c rest IH]; intros buf p out H7; [reflexivity|].
  apply Forall_cons in H7 as [Hc H7]. cbn [getline_loop].
  rewrite !char_int_space, (char_int_7bit c Hc).
  destruct (Ascii.eqb c ASCII_EOT); [reflexivity|].
  destruct (Ascii.eqb c ASCII_CTL_U); [now apply IH|].
  destruct (Ascii.eqb c ASCII_BACKSPACE || Ascii.eqb c ASCII_DELETE).
  { destruct p; now apply IH. }
  destruct (Ascii.eqb c ASCII_CR); [reflexivity|].
  destruct (Ascii.eqb c ASCII_NUL); [now apply IH|].
  destruct (char_int false c <? 32); [now apply IH|].
  destruct (Z.of_nat p <? size - 1); [|now apply IH].
  destruct (store_char buf p c); [now apply IH|reflexivity].
Qed.

(** X26. On input of 7-bit bytes [mshellGetLine] does the same whether
    [char] is signed or unsigned on the platform; the two differ only
    in bytes from 0x80 on, which a signed [char] takes for control
    characters. *)
Theorem X26_getline_signedness sgn echo size input buf out :
  Forall (fun c => (N_of_ascii c < 128)%N) input ->
  mshellGetLine sgn echo size (mkLineIO input buf out)
  = mshellGetLine false echo size (mkLineIO input buf out).
Proof.
  intros H7. destruct sgn; [|reflexivity].
  unfold mshellGetLine. simpl. now apply getline_loop_7bit.
Qed.

Lemma X26_getline_signedness_witness :
  mshellGetLine true true 8 (mkLineIO Typed.corrected Typed.memory [])
  = mshellGetLine false true 8 (mkLineIO Typed.corrected Typed.memory []).
Proof.
  apply X26_getline_signedness.
  repeat constructor.
Defined.

(** * Properties of the commands of mshell.c *)

(** X18. [cmdexec] runs the function of the first entry whose name
    compares equal to the command, once, with the [argc] and [argv] it
    was given, and returns FALSE; entries behind it are not looked at. *)
Theorem X18_cmdexec_first_match `{Externals} pre e post f nm name argc argv st :
  Forall (other_name name) pre ->
  sc_name e = Some nm -> strcasecmp nm name = 0 -> sc_function e = Some f ->
  cmdexec (pre ++ e :: post) name argc argv st = Ret (false, f argc argv st).
Proof.
  intros Hpre Hn Heq Hf. induction Hpre as [|x pre (n & Hx & Hne) _ IH]; simpl.
  - now rewrite Hn, Heq, Hf.
  - now rewrite Hx, (proj2 (Z.eqb_neq _ _) Hne).
Qed.

Lemma X18_cmdexec_first_match_witness :
  cmdexec (H := Console.externals)
    ([mkCommand (Some (Console.cmd_mark "mem")) (Some "mem"%string) None]
     ++ mkCommand (Some (Console.cmd_mark "other echo")) (Some "echo"%string) None
     :: [mkCommand (Some (Console.cmd_mark "other exit")) (Some "exit"%string) None;
         mkCommand None None None])
    "ECHO" 0 [] Console.fresh
  = Ret (false, Console.cmd_mark "other echo" 0 [] Console.fresh).
Proof.
  apply (X18_cmdexec_first_match (H := Console.externals)) with (nm := "echo"%string).
  - repeat constructor. exists "mem"%string. split; [reflexivity|]. vm_compute. discriminate.
  - reflexivity.
  - reflexivity.
  - reflexivity.
Defined.

(** X19. When no entry before the end mark has the name, [cmdexec]
    returns TRUE and has run nothing, whatever lies behind the mark; a
    table that has no end mark is read past its end. *)
Theorem X19_cmdexec_no_match `{Externals} pre name argc argv st :
  Forall (other_name name) pre ->
  (forall e post,
     sc_name e = None -> cmdexec (pre ++ e :: post) name argc argv st = Ret (true, st))
  /\ cmdexec pre name argc argv st = Fault.
Proof.
  intros Hpre. induction Hpre as [|x pre (n & Hx & Hne) _ [IH1 IH2]]; simpl.
  - split; [|reflexivity]. intros e post He. now rewrite He.
  - rewrite Hx, (proj2 (Z.eqb_neq _ _) Hne). auto.
Qed.

Lemma X19_cmdexec_no_match_witness :
  (forall e post,
     sc_name e = None ->
     cmdexec (H := Console.externals)
       ([mkCommand (Some (Console.cmd_mark "mem")) (Some "mem"%string) None] ++ e :: post)
       "threads" 0 [] Console.fresh
     = Ret (true, Console.fresh))
  /\ cmdexec (H := Console.externals)
       [mkCommand (Some (Console.cmd_mark "mem")) (Some "mem"%string) None]
       "threads" 0 [] Console.fresh
     = Fault.
Proof.
  apply (X19_cmdexec_no_match (H := Console.externals)).
  repeat constructor. exists "mem"%string. split; [reflexivity|]. vm_compute. discriminate.
Defined.

Lemma collect_args_None `{Externals} : forall toks args,
  Z.of_nat (length args) <= MSHELL_MAX_ARGUMENTS ->
  MSHELL_MAX_ARGUMENTS < Z.of_nat (length args + length toks) ->
  collect_args toks args = None.
Proof.
  induction toks as [|lp toks IH]; intros args Hle Hgt; simpl in *; [lia|].
  destruct (Z.geb_spec (Z.of_nat (length args)) MSHELL_MAX_ARGUMENTS); [reflexivity|].
  apply IH; rewrite length_app; simpl; lia.
Qed.

Lemma collect_args_Some `{Externals} : forall toks args,
  Z.of_nat (length args + length toks) <= MSHELL_MAX_ARGUMENTS ->
  collect_args toks args = Some (args ++ toks).
Proof.
  induction toks as [|lp toks IH]; intros args Hle; simpl in *.
  - now rewrite app_nil_r.
  - destruct (Z.geb_spec (Z.of_nat (length args)) MSHELL_MAX_ARGUMENTS); [lia|].
    rewrite IH by (rewrite length_app; simpl; lia). now rewrite <- app_assoc.
Qed.

(** X20. A line with more than [MSHELL_MAX_ARGUMENTS] arguments runs no
    command at all, not even [exit]: the shell reports "too many
    arguments" and goes on. *)
Theorem X20_too_many_arguments `{Externals} scp line cmd toks st :
  strtok_tokens line = cmd :: toks ->
  0 <= MSHELL_MAX_ARGUMENTS ->
  MSHELL_MAX_ARGUMENTS < Z.of_nat (length toks) ->
  shell_command scp line st
  = Ret (Go_on, emit st (Message_error "too many arguments" [])).
Proof.
  intros Htok Hmax Hmany. unfold shell_command. rewrite Htok.
  now rewrite collect_args_None by (simpl; lia).
Qed.

Lemma X20_too_many_arguments_witness :
  shell_command (H := Console.externals) (Some Console.configured)
    "exit a b c d" Console.fresh
  = Ret (Go_on, emit Console.fresh (Message_error "too many arguments" [])).
Proof.
  apply (X20_too_many_arguments (H := Console.externals)) with
    (cmd := "exit"%string) (toks := ["a"; "b"; "c"; "d"]%string).
  - reflexivity.
  - simpl. lia.
  - simpl. lia.
Defined.

(** X21. A command that compares equal to "exit" makes the thread leave
    its loop, whatever arguments follow it (no more than
    [MSHELL_MAX_ARGUMENTS]) and whatever the tables hold: a configured
    command of that name is never run. *)
Theorem X21_exit_is_reserved `{Externals} scp line cmd toks st :
  strtok_tokens line = cmd :: toks ->
  Z.of_nat (length toks) <= MSHELL_MAX_ARGUMENTS ->
  strcasecmp cmd "exit" = 0 ->
  shell_command scp line st = Ret (Leave, emit st (Message_error "exit" [])).
Proof.
  intros Htok Hargs Hexit. unfold shell_command. rewrite Htok.
  rewrite collect_args_Some by (simpl; lia). now rewrite Hexit.
Qed.

Lemma X21_exit_is_reserved_witness :
  shell_command (H := Console.externals) (Some Console.configured)
    "Exit now" Console.fresh
  = Ret (Leave, emit Console.fresh (Message_error "exit" [])).
Proof.
  apply (X21_exit_is_reserved (H := Console.externals)) with
    (cmd := "Exit"%string) (toks := ["now"]%string).
  - reflexivity.
  - simpl. lia.
  - reflexivity.
Defined.

Lemma cmdexec_local_found `{Externals} name argc argv st :
  Exists (fun e => exists n, sc_name e = Some n /\ strcasecmp n name = 0)
    local_commands ->
  exists st', cmdexec local_commands name argc argv st = Ret (false, st').
Proof.
  intros Hex. unfold local_commands in *. simpl.
  repeat match goal with
  | |- context [strcasecmp ?n name =? 0] =>
      destruct (Z.eqb_spec (strcasecmp n name) 0); [eauto|]
  end.
  exfalso.
  repeat match goal with
  | H : Exists _ (_ :: _) |- _ =>
      apply Exists_cons in H as [(n' & Hn' & Heq)|H];
        [simpl in Hn'; congruence|]
  end.
  inversion Hex.
Qed.

(** X22. The shell's own commands come first: for a command, other than
    "help", that compares equal to the name of an own command, the
    configured table does not matter; what the shell does is what it
    does with no table configured. *)
Theorem X22_own_commands_first `{Externals} scp line cmd toks st :
  strtok_tokens line = cmd :: toks ->
  strcasecmp cmd "help" <> 0 ->
  Exists (fun e => exists n, sc_name e = Some n /\ strcasecmp n cmd = 0)
    local_commands ->
  shell_command scp line st = shell_command None line st.
Proof.
  intros Htok Hhelp Hex. unfold shell_command. rewrite Htok.
  destruct (collect_args toks []) as [args|]; [|reflexivity].
  destruct (strcasecmp cmd "exit" =? 0); [reflexivity|].
  rewrite (proj2 (Z.eqb_neq _ _) Hhelp).
  destruct (cmdexec_local_found cmd (Z.of_nat (length args)) args st Hex)
    as [st' ->].
  reflexivity.
Qed.

Lemma X22_own_commands_first_witness :
  shell_command (H := Console.externals) (Some Console.configured) "echo" Console.fresh
  = shell_command (H := Console.externals) None "echo" Console.fresh.
Proof.
  apply (X22_own_commands_first (H := Console.externals)) with
    (cmd := "echo"%string) (toks := []).
  - reflexivity.
  - vm_compute. discriminate.
  - unfold local_commands. do 4 apply Exists_cons_tl. apply Exists_cons_hd.
    exists "echo"%string. split; reflexivity.
Defined.

Lemma collect_args_inv `{Externals} : forall toks args r,
  collect_args toks args = Some r -> r = args ++ toks.
Proof.
  induction toks as [|lp toks IH]; intros args r; simpl.
  - intros [= <-]. now rewrite app_nil_r.
  - destruct (Z.of_nat (length args) >=? MSHELL_MAX_ARGUMENTS); [discriminate|].
    intros Hr. rewrite (IH _ _ Hr). now rewrite <- app_assoc.
Qed.

(** X23. With no table configured, the shell changes
    [mshell_echo_chars] for one kind of line only: the command alone on
    the line, comparing equal to "echo" or to "noecho".  With an
    argument, or under any other name, the echo stays as it is. *)
Theorem X23_echo_changes_only_by_echo `{Externals} line st nx st' :
  shell_command None line st = Ret (nx, st') ->
  mshell_echo_chars st' <> mshell_echo_chars st ->
  exists cmd,
    strtok_tokens line = [cmd]
    /\ (strcasecmp "echo" cmd = 0 \/ strcasecmp "noecho" cmd = 0).
Proof.
  unfold shell_command.
  destruct (strtok_tokens line) as [|cmd toks]; [intros [= _ <-] Hne; now destruct Hne|].
  destruct (collect_args toks []) as [args|] eqn:Hargs;
    [|intros [= _ <-] Hne; now destruct Hne].
  apply collect_args_inv in Hargs. simpl in Hargs. subst args.
  destruct (strcasecmp cmd "exit" =? 0); [intros [= _ <-] Hne; now destruct Hne|].
  destruct (strcasecmp cmd "help" =? 0); [intros [= _ <-] Hne; now destruct Hne|].
  unfold local_commands. simpl.
  destruct (strcasecmp "info" cmd =? 0).
  { unfold cmd_info. destruct (Z.of_nat (length toks) >? 0);
      intros [= _ <-] Hne; now destruct Hne. }
  destruct (strcasecmp "systime" cmd =? 0); [intros [= _ <-] Hne; now destruct Hne|].
  destruct (strcasecmp "prompt" cmd =? 0).
  { unfold cmd_prompt. destruct (Z.of_nat (length toks) >? 0);
      intros [= _ <-] Hne; now destruct Hne. }
  destruct (strcasecmp "noprompt" cmd =? 0).
  { unfold cmd_noprompt. destruct (Z.of_nat (length toks) >? 0);
      intros [= _ <-] Hne; now destruct Hne. }
  destruct (Z.eqb_spec (strcasecmp "echo" cmd) 0) as [Hecho|_].
  { unfold cmd_echo. destruct (Z.gtb_spec (Z.of_nat (length toks)) 0) as [|Hnone];
      intros [= _ <-] Hne; [now destruct Hne|].
    exists cmd. split; [|now left]. destruct toks; [reflexivity|simpl in Hnone; lia]. }
  destruct (Z.eqb_spec (strcasecmp "noecho" cmd) 0) as [Hnoecho|_].
  { unfold cmd_noecho. destruct (Z.gtb_spec (Z.of_nat (length toks)) 0) as [|Hnone];
      intros [= _ <-] Hne; [now destruct Hne|].
    exists cmd. split; [|now right]. destruct toks; [reflexivity|simpl in Hnone; lia]. }
  intros [= _ <-] Hne. now destruct Hne.
Qed.

Lemma X23_echo_changes_only_by_echo_witness :
  exists cmd,
    strtok_tokens (Externals := Console.externals) "NoEcho" = [cmd]
    /\ (strcasecmp (Externals := Console.externals) "echo" cmd = 0
        \/ strcasecmp (Externals := Console.externals) "noecho" cmd = 0).
Proof.
  apply (X23_echo_changes_only_by_echo (H := Console.externals) "NoEcho" Console.fresh
           Go_on (mkShell false [])).
  - vm_compute. reflexivity.
  - discriminate.
Defined.

(** * Properties of the macros of board.h *)

Lemma testbit_below w v j :
  0 <= v < 2 ^ w -> w <= j -> Z.testbit v j = false.
Proof.
  intros Hv Hj. destruct (Z_lt_le_dec w 0) as [Hneg|Hnn].
  - rewrite Z.pow_neg_r in Hv by exact Hneg. lia.
  - rewrite <- (Z.mod_small v (2 ^ w)) by exact Hv.
    apply Z.mod_pow2_bits_high. lia.
Qed.

Lemma shifted_fits w k v :
  0 < w -> 0 <= k -> (k + 1) * w <= 32 -> 0 <= v < 2 ^ w ->
  u32 (Z.shiftl v (k * w)) = Z.shiftl v (k * w).
Proof.
  intros Hw Hk Hfit Hv. unfold u32. apply Z.mod_small.
  rewrite Z.shiftl_mul_pow2 by nia. split; [nia|].
  apply Z.lt_le_trans with (2 ^ w * 2 ^ (k * w)).
  - apply Z.mul_lt_mono_pos_r; [apply Z.pow_pos_nonneg; nia|lia].
  - rewrite <- Z.pow_add_r by nia. apply Z.pow_le_mono_r; nia.
Qed.

(** Bit [b] of a packed register is bit [b mod w] of the value of field
    [b / w]. *)
Lemma testbit_packed w : 0 < w -> forall vs k b,
  0 <= k -> (k + Z.of_nat (length vs)) * w <= 32 ->
  Forall (fun v => 0 <= v < 2 ^ w) vs ->
  0 <= b ->
  Z.testbit (packed_from w k vs) b =
    match (if b / w <? k then None else vs !! Z.to_nat (b / w - k)) with
    | Some v => Z.testbit v (b mod w)
    | None => false
    end.
Proof.
  intros Hw. induction vs as [|v vs IH]; intros k b Hk Hfit Hvs Hb.
  - simpl. rewrite Z.bits_0. now destruct (b / w <? k).
  - apply Forall_cons in Hvs as [Hv Hvs].
    cbn [packed_from length] in *.
    rewrite Z.lor_spec, shifted_fits by (try assumption; nia).
    rewrite Z.shiftl_spec by exact Hb.
    rewrite IH by (try assumption; lia).
    pose proof (Z.div_mod b w ltac:(lia)) as Hdm.
    pose proof (Z.mod_pos_bound b w Hw) as Hmod.
    destruct (Z.ltb_spec (b / w) k) as [Hlt|Hge].
    + rewrite (proj2 (Z.ltb_lt _ _)) by lia.
      rewrite Z.testbit_neg_r by nia. reflexivity.
    + destruct (Z.eq_dec (b / w) k) as [Heq|Hne].
      * rewrite (proj2 (Z.ltb_lt _ _)) by lia.
        rewrite Heq, Z.sub_diag. simpl. rewrite orb_false_r.
        f_equal. nia.
      * rewrite (proj2 (Z.ltb_ge _ _)) by lia.
        rewrite (testbit_below w v) by (try assumption; nia).
        replace (Z.to_nat (b / w - k)) with (S (Z.to_nat (b / w - (k + 1)))) by lia.
        reflexivity.
Qed.

Lemma packed_field w vs n v :
  0 < w -> Z.of_nat (length vs) * w <= 32 ->
  Forall (fun v => 0 <= v < 2 ^ w) vs ->
  vs !! n = Some v ->
  Z.land (Z.shiftr (packed_from w 0 vs) (Z.of_nat n * w)) (Z.ones w) = v.
Proof.
  intros Hw Hfit Hvs Hn. apply Z.bits_inj'. intros j Hj.
  pose proof (proj1 (Forall_lookup _ _) Hvs n v Hn) as Hv.
  rewrite Z.land_spec, Z.shiftr_spec, Z.testbit_ones_nonneg by lia.
  destruct (Z.ltb_spec j w) as [Hlt|Hge].
  - rewrite andb_true_r, (testbit_packed w Hw vs 0) by (try assumption; nia).
    rewrite Z.div_add, Z.div_small, Z.add_0_l by lia.
    rewrite (proj2 (Z.ltb_ge _ _)) by lia.
    rewrite Z.sub_0_r, Nat2Z.id, Hn.
    now rewrite Z.mod_add, Z.mod_small by lia.
  - rewrite andb_false_r. symmetry. now apply (testbit_below w).
Qed.

Lemma packed_range w vs k : 0 <= packed_from w k vs < 2 ^ 32.
Proof.
  revert k. induction vs as [|v vs IH]; intros k; simpl; [lia|].
  assert (Hu : 0 <= u32 (Z.shiftl v (k * w)) < 2 ^ 32)
    by (apply Z.mod_pos_bound; lia).
  specialize (IH (k + 1)). split.
  - apply Z.lor_nonneg. lia.
  - rewrite <- (Z.mod_small (u32 _) (2 ^ 32)) by exact Hu.
    rewrite <- (Z.mod_small (packed_from w (k + 1) vs) (2 ^ 32)) by exact IH.
    rewrite <- !Z.land_ones, <- Z.land_lor_distr_l, Z.land_ones by lia.
    apply Z.mod_pos_bound. lia.
Qed.

Lemma moder_packed : forall ms n,
  moder_from n ms = packed_from 2 n (map mode_bits ms).
Proof.
  induction ms as [|m ms IH]; intros n; simpl; [reflexivity|].
  rewrite IH. now destruct m.
Qed.

Lemma afr_packed base : forall vs k,
  base mod 8 = 0 -> 0 <= k -> k + Z.of_nat (length vs) <= 8 ->
  afr_from (base + k) vs = packed_from 4 k vs.
Proof.
  induction vs as [|v vs IH]; intros k Hbase Hk Hlen; simpl in *; [reflexivity|].
  rewrite <- Z.add_assoc, IH by lia. unfold PIN_AFIO_AF.
  rewrite Z.add_mod, Hbase, Z.add_0_l, Z.mod_mod, Z.mod_small by lia.
  reflexivity.
Qed.

(** X24. In a mode register value made of one [PIN_MODE_...] macro for
    each of the pins 0, 1, ... (16 at most), the value fits 32 bits and
    the two bits of every pin hold the mode its macro names: the fields
    of the pins do not run into each other. *)
Theorem X24_mode_fields ms n m :
  (length ms <= 16)%nat ->
  ms !! n = Some m ->
  mode_field (moder_from 0 ms) (Z.of_nat n) = mode_bits m
  /\ 0 <= moder_from 0 ms < 2 ^ 32.
Proof.
  intros Hlen Hn. rewrite moder_packed. split; [|apply packed_range].
  unfold mode_field. change 3 with (Z.ones 2).
  apply packed_field; [lia|rewrite length_map; lia| |].
  - apply Forall_forall. intros v Hv.
    apply list_elem_of_In, in_map_iff in Hv as (x & <- & _). destruct x; simpl; lia.
  - change (map mode_bits ms) with (mode_bits <$> ms).
    now rewrite list_lookup_fmap, Hn.
Qed.

Lemma X24_mode_fields_witness :
  mode_field VAL_GPIOA_MODER (Z.of_nat 12) = mode_bits Mode_alternate
  /\ 0 <= VAL_GPIOA_MODER < 2 ^ 32.
Proof.
  apply X24_mode_fields.
  - simpl. lia.
  - reflexivity.
Defined.

(** X25. In an alternate function register value made of one
    [PIN_AFIO_AF] for each of the pins [base], [base + 1], ... (8 at
    most, [base] 0 for AFRL and 8 for AFRH) with functions below 16,
    nibble [i] holds the function given for pin [base + i]. *)
Theorem X25_af_fields base vs i v :
  0 <= base -> base mod 8 = 0 ->
  (length vs <= 8)%nat ->
  Forall (fun x => 0 <= x < 16) vs ->
  vs !! i = Some v ->
  af_field (afr_from base vs) (Z.of_nat i) = v
  /\ 0 <= afr_from base vs < 2 ^ 32.
Proof.
  intros Hb Hbase Hlen Hvs Hi.
  rewrite <- (Z.add_0_r base), afr_packed by lia.
  split; [|apply packed_range].
  unfold af_field. change 15 with (Z.ones 4).
  apply packed_field; [lia|lia|exact Hvs|exact Hi].
Qed.

Lemma X25_af_fields_witness :
  af_field VAL_GPIOA_AFRH (Z.of_nat 3) = 10
  /\ 0 <= VAL_GPIOA_AFRH < 2 ^ 32.
Proof.
  apply X25_af_fields.
  - lia.
  - reflexivity.
  - simpl. lia.
  - repeat constructor; lia.
  - reflexivity.
Defined.
